(** * Sehath Saathi: symptom extraction and disease narrowing

    A shallow embedding of [actions/actions.py]: the text cleaning of
    [clean_symptom_input], the two Rasa actions [ActionPredictDisease] and
    [ActionGetDiseaseInfo], and the fragment of pandas and of the Python
    string library they rely on.

    Conventions.
    - A Python [str] is a list of characters.  A character is a code point
      below 256 (Latin-1), carried by [ascii]; [lower], [\s] and [strip]
      follow Python's Unicode tables on that range.
    - Module level globals ([disease_symptoms], [disease_info],
      [all_symptoms]) are explicit arguments.
    - [dispatcher.utter_message] appends to the list of messages uttered so
      far; a handler returns its events together with that list.
    - An exception is a value of [Result]. *)

From Stdlib Require Import Ascii String ZArith NArith Bool Arith Lia.
From Stdlib Require Import List Permutation.
Import ListNotations.

Open Scope list_scope.

(** ** Python strings *)

Abbreviation str := (list ascii) (only parsing).

(** A literal, written as in the source. *)
Definition text (s : string) : str := list_ascii_of_string s.

Arguments text : simpl never.

Definition code (c : ascii) : N := N_of_ascii c.

Definition str_eqb (a b : str) : bool :=
  if list_eq_dec ascii_dec a b then true else false.

(** [x in xs] for a list of strings. *)
Definition mem (x : str) (xs : list str) : bool := existsb (str_eqb x) xs.

(** [str.isspace] on one character; the same class as [\s] in a [str]
    pattern of [re]. *)
Definition is_space (c : ascii) : bool :=
  let n := code c in
  ((9 <=? n) && (n <=? 13) || (28 <=? n) && (n <=? 32)
   || (n =? 133) || (n =? 160))%N.

(** Membership in the character class [[,\s]]. *)
Definition is_sep (c : ascii) : bool := (code c =? 44)%N || is_space c.

(** [str.lower] on one character. *)
Definition lower_char (c : ascii) : ascii :=
  let n := code c in
  if ((65 <=? n) && (n <=? 90)
      || (192 <=? n) && (n <=? 222) && negb (n =? 215))%N
  then ascii_of_N (n + 32) else c.

Definition lower (s : str) : str := map lower_char s.

(** [s.startswith(p)] *)
Fixpoint startswith (p s : str) : bool :=
  match p, s with
  | [], _ => true
  | _ :: _, [] => false
  | a :: p', b :: s' => if ascii_dec a b then startswith p' s' else false
  end.

(** [s.replace(old, new)]: the occurrences of [old] are found from left to
    right and do not overlap.  [skip] counts the characters of an occurrence
    that remain to be dropped. *)
Fixpoint replace_from (old new : str) (skip : nat) (s : str) : str :=
  match s with
  | [] => []
  | c :: s' =>
      match skip with
      | S k => replace_from old new k s'
      | O =>
          if startswith old s
          then new ++ replace_from old new (length old - 1) s'
          else c :: replace_from old new 0 s'
      end
  end.

Definition replace (old new s : str) : str :=
  match old with
  | [] => new ++ flat_map (fun c => c :: new) s
  | _ :: _ => replace_from old new 0 s
  end.

(** [re.split(r"[,\s]+", s)]: the pieces between the maximal runs of
    separators; a run at either end leaves an empty piece there, and the
    empty string splits into one empty piece. *)
Fixpoint re_split (s : str) : list str :=
  match s with
  | [] => [[]]
  | c :: s' =>
      if is_sep c then
        match s' with
        | c' :: _ => if is_sep c' then re_split s' else [] :: re_split s'
        | [] => [] :: re_split s'
        end
      else
        match re_split s' with
        | t :: ts => (c :: t) :: ts
        | [] => [[c]]
        end
  end.

Fixpoint lstrip (s : str) : str :=
  match s with
  | c :: s' => if is_space c then lstrip s' else s
  | [] => []
  end.

(** [s.strip()] *)
Definition strip (s : str) : str := rev (lstrip (rev (lstrip s))).

(** [sep.join(xs)] *)
Fixpoint join (sep : str) (xs : list str) : str :=
  match xs with
  | [] => []
  | [x] => x
  | x :: xs' => x ++ sep ++ join sep xs'
  end.

(** ** [clean_symptom_input] *)

Definition filler_words : list str :=
  [text "i have"; text "i am"; text "i feel"; text "i'm"; text "having";
   text "suffering from"; text "got"; text "with"; text "also"; text "and"].

Definition clean_symptom_input (all_symptoms : list str) (user_input : str)
  : list str :=
  let text0 := lower user_input in
  let text1 :=
    fold_left (fun t word => replace word (text " ") t) filler_words text0 in
  let tokens := re_split text1 in
  map strip (filter (fun t => mem (strip t) all_symptoms) tokens).

(** ** Exceptions *)

Inductive Exception := TypeError.

Inductive Result (A : Type) : Type :=
| Ok (a : A)
| Raise (e : Exception).

Arguments Ok {A} a.
Arguments Raise {A} e.

(** ** The pandas fragment *)

(** [disease_symptoms]: a header of symptom labels, each held once, next to
    the text column ["prognosis"]; one row per disease profile.  A cell the
    row is too short for is missing (NaN). *)
Record Row := { prognosis : str; values : list Z }.

Record DataFrame := { symptom_columns : list str; rows : list Row }.

(** [df.columns] *)
Definition columns (df : DataFrame) : list str :=
  symptom_columns df ++ [text "prognosis"].

Fixpoint index_of (x : str) (xs : list str) : option nat :=
  match xs with
  | [] => None
  | y :: ys =>
      if str_eqb x y then Some O
      else match index_of x ys with Some i => Some (S i) | None => None end
  end.

(** The cell of row [r] under the symptom label [col]. *)
Definition cell (df : DataFrame) (r : Row) (col : str) : option Z :=
  match index_of col (symptom_columns df) with
  | Some i => nth_error (values r) i
  | None => None
  end.

(** A column: numbers with missing cells, or Python objects (here text). *)
Inductive Series :=
| Numeric (l : list (option Z))
| Object (l : list str).

(** [df[col]] for a label of [df.columns]; the source reads a symptom column
    only behind the test [sym in candidate_diseases.columns]. *)
Definition getitem (df : DataFrame) (col : str) : Series :=
  if str_eqb col (text "prognosis") then Object (map prognosis (rows df))
  else Numeric (map (fun r => cell df r col) (rows df)).

(** [series == k]: elementwise; a missing cell or a text never equals a
    number. *)
Definition series_eq (s : Series) (k : Z) : list bool :=
  match s with
  | Numeric l =>
      map (fun o => match o with Some z => Z.eqb z k | None => false end) l
  | Object l => map (fun _ => false) l
  end.

(** [df[mask]]: the rows whose mask entry is true, under the same header. *)
Definition getitem_mask (df : DataFrame) (mask : list bool) : DataFrame :=
  {| symptom_columns := symptom_columns df;
     rows := map snd (filter fst (combine mask (rows df))) |}.

Inductive Scalar :=
| SNum (z : Z)
| SStr (s : str).

(** A 64 bit signed integer: the value a sum takes after wrap-around. *)
Definition wrap64 (z : Z) : Z := ((z + 2 ^ 63) mod 2 ^ 64 - 2 ^ 63)%Z.

(** [series.sum()].  A numeric column with every cell present is an int64
    column: its cells are added with wrap-around.  A column with a missing
    cell is a float64 column, whose sum skips the missing cells and is
    rounded; it is kept exact here, which is its value as long as the cells
    and their partial sums stay below 2^53 in magnitude.  The statements
    about sums are for tables without missing cells ([int64_table]).
    Texts are concatenated, and the sum of no text at all is the
    number 0. *)
Definition series_sum (s : Series) : Scalar :=
  match s with
  | Numeric l =>
      let total :=
        fold_right
          (fun o acc => match o with Some z => z + acc | None => acc end)%Z
          0%Z l in
      if forallb (fun o => match o with Some _ => true | None => false end) l
      then SNum (wrap64 total)
      else SNum total
  | Object [] => SNum 0
  | Object (x :: l) => SStr (concat (x :: l))
  end.

(** [x > k] for an integer [k]: comparing a text with a number raises. *)
Definition gt (x : Scalar) (k : Z) : Result bool :=
  match x with
  | SNum z => Ok (Z.ltb k z)
  | SStr _ => Raise TypeError
  end.

(** [all_symptoms], computed once from the header. *)
Definition all_symptoms (disease_symptoms : DataFrame) : list str :=
  map lower
    (filter (fun col => negb (str_eqb col (text "prognosis")))
       (columns disease_symptoms)).

(** [disease_info]: one row of text fields per disease. *)
Record InfoRow :=
  { disease : str; description : str; treatment : str; prevention : str }.

Definition InfoFrame := list InfoRow.

(** [disease_info[disease_info["disease"] == d]] *)
Definition where_disease (disease_info : InfoFrame) (d : str) : InfoFrame :=
  filter (fun r => str_eqb (disease r) d) disease_info.

(** The lookup both actions spell out: [.empty], else the three fields at
    [.values[0]]. *)
Definition lookup (d : str) (disease_info : InfoFrame)
  : option (str * str * str) :=
  match where_disease disease_info d with
  | [] => None
  | r :: _ => Some (description r, treatment r, prevention r)
  end.

(** ** The dialogue manager's side *)

Module Slot.
Inductive t :=
| symptoms | possible_diseases | predicted_disease
| remaining_symptoms_to_ask.

(** The declared type of each slot. *)
Definition type (k : t) : Type :=
  match k with
  | predicted_disease => str
  | _ => list str
  end.
End Slot.

(** The slot store of a conversation; [None] is an unset slot. *)
Definition Slots := forall k : Slot.t, option (Slot.type k).

(** The tracker of a turn.  [latest_message_text] is the text of the latest
    message, [None] when the message has no key ["text"]; the text is a
    string whenever the key is there. *)
Record Tracker :=
  { latest_message_text : option str;
    get_slot : Slots }.

Inductive Event :=
| SlotSet (key : Slot.t) (value : Slot.type key).

(** The text messages of the two actions, by template and arguments. *)
Inductive Message :=
| could_you_rephrase
| could_not_match
| most_likely_with_details (final_disease description treatment prevention : str)
| most_likely (final_disease : str)
| do_you_also_have (joined_symptoms : str)
| possible_diseases_are (joined_diseases : str)
| which_disease
| details_of (description treatment prevention : str)
| no_details_about (disease : str).

(** How the dialogue manager applies a returned event to the store. *)
Definition set_slot (k : Slot.t) : Slot.type k -> Slots -> Slots :=
  match k as k0 return Slot.type k0 -> Slots -> Slots with
  | Slot.symptoms => fun v s k' =>
      match k' as k1 return option (Slot.type k1) with
      | Slot.symptoms => Some v
      | k1 => s k1
      end
  | Slot.possible_diseases => fun v s k' =>
      match k' as k1 return option (Slot.type k1) with
      | Slot.possible_diseases => Some v
      | k1 => s k1
      end
  | Slot.predicted_disease => fun v s k' =>
      match k' as k1 return option (Slot.type k1) with
      | Slot.predicted_disease => Some v
      | k1 => s k1
      end
  | Slot.remaining_symptoms_to_ask => fun v s k' =>
      match k' as k1 return option (Slot.type k1) with
      | Slot.remaining_symptoms_to_ask => Some v
      | k1 => s k1
      end
  end.

Definition apply_event (s : Slots) (e : Event) : Slots :=
  match e with SlotSet k v => set_slot k v s end.

Definition apply_events (events : list Event) (s : Slots) : Slots :=
  fold_left apply_event events s.

(** ** [ActionPredictDisease] *)

(** [list(set(xs))] enumerates the elements of [xs] once each, in an order
    the language leaves open.  The actions take the enumeration as an
    argument; [set_listing] is what every such enumeration satisfies. *)
Definition set_listing (list_of_set : list str -> list str) : Prop :=
  forall xs, NoDup (list_of_set xs)
             /\ forall x, In x (list_of_set xs) <-> In x xs.

(** Lines 52-55: the filtering loop. *)
Definition candidate_diseases (updated_symptoms : list str)
    (disease_symptoms : DataFrame) : DataFrame :=
  fold_left
    (fun candidates sym =>
       if mem sym (columns candidates)
       then getitem_mask candidates (series_eq (getitem candidates sym) 1)
       else candidates)
    updated_symptoms disease_symptoms.

(** Line 57: [candidate_diseases["prognosis"].tolist()] *)
Definition possible_diseases (candidates : DataFrame) : list str :=
  map prognosis (rows candidates).

(** Lines 86-90: the loop over [all_symptoms]. *)
Fixpoint remaining_symptoms_loop (updated_symptoms : list str)
    (candidates : DataFrame) (syms remaining : list str)
  : Result (list str) :=
  match syms with
  | [] => Ok remaining
  | sym :: syms' =>
      if negb (mem sym updated_symptoms) && mem sym (columns candidates)
      then
        match gt (series_sum (getitem candidates sym)) 0 with
        | Ok true =>
            remaining_symptoms_loop updated_symptoms candidates syms'
              (remaining ++ [sym])
        | Ok false =>
            remaining_symptoms_loop updated_symptoms candidates syms'
              remaining
        | Raise e => Raise e
        end
      else
        remaining_symptoms_loop updated_symptoms candidates syms' remaining
  end.

Definition remaining_symptoms (all_symptoms updated_symptoms : list str)
    (candidates : DataFrame) : Result (list str) :=
  remaining_symptoms_loop updated_symptoms candidates all_symptoms [].

(** The outcome of narrowing, as the three branches of [run] decide it. *)
Inductive NarrowResult :=
| NoMatch
| UniqueMatch (diseaseName : str)
| Ambiguous (candidateDiseases discriminatingSymptoms : list str).

Definition narrow (knownSymptoms : list str) (table : DataFrame)
  : Result NarrowResult :=
  let candidates := candidate_diseases knownSymptoms table in
  match possible_diseases candidates with
  | [] => Ok NoMatch
  | [final_disease] => Ok (UniqueMatch final_disease)
  | possible =>
      match remaining_symptoms (all_symptoms table) knownSymptoms candidates with
      | Ok remaining => Ok (Ambiguous possible (firstn 5 remaining))
      | Raise e => Raise e
      end
  end.

(** Line 40: [tracker.latest_message.get("text", "")] *)
Definition user_message (tracker : Tracker) : str :=
  match latest_message_text tracker with
  | Some t => t
  | None => []
  end.

(** Line 48: [tracker.get_slot("symptoms") or []] *)
Definition stored_symptoms (tracker : Tracker) : list str :=
  match get_slot tracker Slot.symptoms with
  | Some l => l
  | None => []
  end.

Module ActionPredictDisease.

Definition name : string := "action_predict_disease".

Definition run (list_of_set : list str -> list str)
    (disease_symptoms : DataFrame) (disease_info : InfoFrame)
    (dispatcher : list Message) (tracker : Tracker)
  : Result (list Event * list Message) :=
  let new_symptoms :=
    clean_symptom_input (all_symptoms disease_symptoms)
      (user_message tracker) in
  match new_symptoms with
  | [] => Ok ([], dispatcher ++ [could_you_rephrase])
  | _ :: _ =>
      let updated_symptoms :=
        list_of_set (stored_symptoms tracker ++ new_symptoms) in
      let candidates := candidate_diseases updated_symptoms disease_symptoms in
      let possible := possible_diseases candidates in
      match possible with
      | [] =>
          Ok ([SlotSet Slot.symptoms updated_symptoms;
               SlotSet Slot.possible_diseases []],
              dispatcher ++ [could_not_match])
      | [final_disease] =>
          let msg :=
            match lookup final_disease disease_info with
            | Some (description, treatment, prevention) =>
                most_likely_with_details final_disease
                  description treatment prevention
            | None => most_likely final_disease
            end in
          Ok ([SlotSet Slot.symptoms updated_symptoms;
               SlotSet Slot.possible_diseases [final_disease];
               SlotSet Slot.predicted_disease final_disease],
              dispatcher ++ [msg])
      | _ =>
          match remaining_symptoms (all_symptoms disease_symptoms)
                  updated_symptoms candidates with
          | Raise e => Raise e
          | Ok remaining =>
              let msg :=
                match remaining with
                | _ :: _ =>
                    do_you_also_have (join (text ", ") (firstn 5 remaining))
                | [] => possible_diseases_are (join (text ", ") possible)
                end in
              Ok ([SlotSet Slot.symptoms updated_symptoms;
                   SlotSet Slot.possible_diseases possible;
                   SlotSet Slot.remaining_symptoms_to_ask
                     (firstn 5 remaining)],
                  dispatcher ++ [msg])
          end
      end
  end.

End ActionPredictDisease.

(** ** [ActionGetDiseaseInfo] *)

Module ActionGetDiseaseInfo.

Definition name : string := "action_get_disease_info".

Definition run (disease_info : InfoFrame)
    (dispatcher : list Message) (tracker : Tracker)
  : list Event * list Message :=
  match get_slot tracker Slot.predicted_disease with
  | None | Some [] => ([], dispatcher ++ [which_disease])
  | Some disease =>
      match lookup disease disease_info with
      | Some (description, treatment, prevention) =>
          ([], dispatcher ++ [details_of description treatment prevention])
      | None => ([], dispatcher ++ [no_details_about disease])
      end
  end.

End ActionGetDiseaseInfo.

(** ** Vocabulary of the statements *)

(** What row [r] holds under the label [col]: its disease name under
    ["prognosis"], else its number under that symptom label, if any. *)
Definition value_at (df : DataFrame) (r : Row) (col : str) : option Scalar :=
  if str_eqb col (text "prognosis") then Some (SStr (prognosis r))
  else option_map SNum (cell df r col).

Definition equals_1 (v : option Scalar) : bool :=
  match v with
  | Some (SNum z) => Z.eqb z 1
  | _ => false
  end.

(** [r] has a 1 under every known symptom that names a column of [df]. *)
Definition has_all_known (df : DataFrame) (knownSymptoms : list str)
    (r : Row) : bool :=
  forallb
    (fun sym => implb (mem sym (columns df)) (equals_1 (value_at df r sym)))
    knownSymptoms.

(** The sum of a symptom column is defined and positive. *)
Definition column_sum_positive (df : DataFrame) (sym : str) : bool :=
  match gt (series_sum (getitem df sym)) 0 with
  | Ok b => b
  | Raise _ => false
  end.

(** Line 49, for the tracker and message at hand. *)
Definition updated_symptoms (list_of_set : list str -> list str)
    (disease_symptoms : DataFrame) (tracker : Tracker) : list str :=
  list_of_set
    (stored_symptoms tracker
     ++ clean_symptom_input (all_symptoms disease_symptoms)
          (user_message tracker)).

(** A symptom the action may still ask about: not known yet, a column of the
    candidates, present in at least one of them by the column sum. *)
Definition open_symptom (knownSymptoms : list str) (candidates : DataFrame)
    (sym : str) : bool :=
  negb (mem sym knownSymptoms) && mem sym (columns candidates)
  && column_sum_positive candidates sym.

(** [list(set(xs))] taken in order of first occurrence. *)
Definition first_occurrences : list str -> list str :=
  nodup (list_eq_dec ascii_dec).

(** The table of the scenarios: flu and measles over fever, cough, rash. *)
Definition scenario_table : DataFrame :=
  {| symptom_columns := [text "fever"; text "cough"; text "rash"];
     rows := [ {| prognosis := text "flu"; values := [1; 1; 0]%Z |};
               {| prognosis := text "measles"; values := [1; 0; 1]%Z |} ] |}.

(** Two surviving rows of one and the same disease. *)
Definition twin_table : DataFrame :=
  {| symptom_columns := [text "fever"; text "cough"];
     rows := [ {| prognosis := text "flu"; values := [1; 1]%Z |};
               {| prognosis := text "flu"; values := [1; 0]%Z |} ] |}.

(** Two diseases that the one symptom of the table cannot tell apart. *)
Definition fever_only_table : DataFrame :=
  {| symptom_columns := [text "fever"];
     rows := [ {| prognosis := text "flu"; values := [1]%Z |};
               {| prognosis := text "cold"; values := [1]%Z |} ] |}.

Definition scenario_info : InfoFrame :=
  [ {| disease := text "flu"; description := text "viral infection";
       treatment := text "rest"; prevention := text "vaccine" |} ].

Definition no_slots : Slots := fun _ => None.

(** The filler stripping of line 25-26: one [replace] per word, in the
    order of the list. *)
Definition remove_all (words : list str) (t : str) : str :=
  fold_left (fun t word => replace word (text " ") t) words t.

(** Section 4.1 of the specification, step by step in its words: lowercase;
    replace each filler phrase, in the fixed sequence, by one space; split on
    the runs of commas and whitespace; trim each token; keep the tokens that
    equal a member of the vocabulary. *)
Definition extract (rawText : str) (vocabulary : list str) : list str :=
  let lowered := lower rawText in
  let without_fillers :=
    replace (text "and") (text " ")
      (replace (text "also") (text " ")
         (replace (text "with") (text " ")
            (replace (text "got") (text " ")
               (replace (text "suffering from") (text " ")
                  (replace (text "having") (text " ")
                     (replace (text "i'm") (text " ")
                        (replace (text "i feel") (text " ")
                           (replace (text "i am") (text " ")
                              (replace (text "i have") (text " ")
                                 lowered))))))))) in
  let pieces := re_split without_fillers in
  let trimmed := map strip pieces in
  filter (fun token => mem token vocabulary) trimmed.

(** [w] occurs in [s] as a substring. *)
Definition occurs (w s : str) : Prop := exists p q, s = p ++ w ++ q.

(** A separator a clean list is written with: commas and spaces only. *)
Definition comma_space (sep : str) : Prop :=
  sep <> [] /\ Forall (fun c => c = ","%char \/ c = " "%char) sep.

(** Idempotence on clean lists, for every way of writing the two lists with
    commas and spaces. *)
Definition idempotent_on_clean_lists : Prop :=
  forall (vocabulary members : list str) (sep sep' : str),
    Forall (fun m => In m vocabulary) members ->
    comma_space sep -> comma_space sep' ->
    clean_symptom_input vocabulary
      (join sep' (clean_symptom_input vocabulary (join sep members)))
    = clean_symptom_input vocabulary (join sep members).

(** A character [str.lower] leaves alone. *)
Definition lower_fixed (c : ascii) : Prop := lower_char c = c.

(** First and last character outside [[,\s]], and no comma inside. *)
Definition word_shaped (w : str) : bool :=
  match w, rev w with
  | c :: _, d :: _ =>
      negb (is_sep c) && negb (is_sep d)
      && negb (existsb (fun x => (code x =? 44)%N) w)
  | _, _ => false
  end.

(** The text [clean_symptom_input] splits: lowered, fillers replaced. *)
Definition cleaned_text (user_input : str) : str :=
  remove_all filler_words (lower user_input).

(** What every returned token is: a member of the vocabulary, free of
    separators and of filler words, and in lower case. *)
Definition clean_token (vocabulary : list str) (t : str) : Prop :=
  In t vocabulary
  /\ Forall (fun c => is_sep c = false) t
  /\ Forall lower_fixed t
  /\ forall w, In w filler_words -> ~ occurs w t.

(** A header with a second label that lowercases to ["prognosis"]. *)
Definition second_prognosis_table : DataFrame :=
  {| symptom_columns := [text "fever"; text "Prognosis"];
     rows := [ {| prognosis := text "flu"; values := [1; 0]%Z |};
               {| prognosis := text "cold"; values := [1; 1]%Z |} ] |}.

(** A header written with capitals, as a file may have it. *)
Definition capitalised_table : DataFrame :=
  {| symptom_columns := [text "Fever"; text "Cough"];
     rows := [ {| prognosis := text "flu"; values := [1; 1]%Z |};
               {| prognosis := text "measles"; values := [1; 0]%Z |} ] |}.

Definition in_int64 (z : Z) : Prop := (- 2 ^ 63 <= z < 2 ^ 63)%Z.

(** A table whose symptom columns are int64 columns: every row has a whole
    number of 64 bits under every symptom label. *)
Definition int64_table (df : DataFrame) : Prop :=
  forall r, In r (rows df) ->
            length (values r) = length (symptom_columns df)
            /\ Forall in_int64 (values r).

(** No cell below zero, as for presence indicators. *)
Definition non_negative_table (df : DataFrame) : Prop :=
  forall r, In r (rows df) -> Forall (fun z => 0 <= z)%Z (values r).

(** The sum of the cells under [sym] over the rows of [df], as a number. *)
Definition column_total (df : DataFrame) (sym : str) : Z :=
  fold_left Z.add
    (map (fun r => match cell df r sym with Some z => z | None => 0%Z end)
       (rows df))
    0%Z.

Definition str_dec : forall a b : str, {a = b} + {a <> b} :=
  list_eq_dec ascii_dec.

(** The three conditions on a follow-up symptom as the claim words them: not
    a known symptom, a column of the candidate rows, and a column sum over
    those rows, taken in 64 bits, strictly above zero. *)
Definition is_discriminating (knownSymptoms : list str)
    (candidates : DataFrame) (sym : str) : bool :=
  if in_dec str_dec sym knownSymptoms then false
  else if in_dec str_dec sym (columns candidates) then
    if Z_lt_dec 0 (wrap64 (column_total candidates sym)) then true else false
  else false.

(** The scenario table with a symptom that none of its diseases shows. *)
Definition itch_table : DataFrame :=
  {| symptom_columns := [text "fever"; text "cough"; text "rash"; text "itch"];
     rows := [ {| prognosis := text "flu"; values := [1; 1; 0; 0]%Z |};
               {| prognosis := text "measles"; values := [1; 0; 1; 0]%Z |} ] |}.

(** *** The steps of section 4.1, each stated on its own *)

(** Lowercasing, by the table of the letters that have a small form. *)
Definition upper_case : str :=
  text "ABCDEFGHIJKLMNOPQRSTUVWXYZ"
  ++ map ascii_of_nat (seq 192 23 ++ seq 216 7).

Definition lower_case : str :=
  text "abcdefghijklmnopqrstuvwxyz"
  ++ map ascii_of_nat (seq 224 23 ++ seq 248 7).

Fixpoint counterpart (c : ascii) (from to : str) : ascii :=
  match from, to with
  | a :: from', b :: to' => if ascii_dec c a then b else counterpart c from' to'
  | _, _ => c
  end.

Definition lowercase_of (c : ascii) : ascii :=
  counterpart c upper_case lower_case.

Definition Lowered (s r : str) : Prop :=
  Forall2 (fun c d => d = lowercase_of c) s r.

(** [old] occurs in [s] at the end of [p], and nowhere further left. *)
Definition first_at (old s p q : str) : Prop :=
  s = p ++ old ++ q
  /\ forall p' q', s = p' ++ old ++ q' -> length p <= length p'.

(** Every occurrence of [old], found from the left and without overlap, is
    replaced by [new]; the rest of the text stays. *)
Inductive Replaced (old new : str) : str -> str -> Prop :=
| Replaced_none (s : str) :
    ~ occurs old s -> Replaced old new s s
| Replaced_first (s p q r : str) :
    first_at old s p q -> Replaced old new q r ->
    Replaced old new s (p ++ new ++ r).

(** The filler phrases of the specification, in its sequence. *)
Definition filler_phrases : list str :=
  [text "i have"; text "i am"; text "i feel"; text "i'm"; text "having";
   text "suffering from"; text "got"; text "with"; text "also"; text "and"].

(** One phrase after the other, each over the whole text. *)
Inductive ReplacedInTurn (new : str) : list str -> str -> str -> Prop :=
| ReplacedInTurn_nil (s : str) : ReplacedInTurn new [] s s
| ReplacedInTurn_cons (w : str) (ws : list str) (s s1 r : str) :
    Replaced w new s s1 -> ReplacedInTurn new ws s1 r ->
    ReplacedInTurn new (w :: ws) s r.

Definition clear_start (s : str) : Prop :=
  match s with
  | c :: _ => is_sep c = false
  | [] => True
  end.

(** The text is cut at every run of commas and whitespace: a piece holds no
    separator, a run holds nothing else, is not empty and is not followed
    by a separator. *)
Inductive SplitOnRuns : str -> list str -> Prop :=
| SplitOnRuns_end (p : str) :
    Forall (fun c => is_sep c = false) p -> SplitOnRuns p [p]
| SplitOnRuns_run (p run rest : str) (pieces : list str) :
    Forall (fun c => is_sep c = false) p ->
    run <> [] -> Forall (fun c => is_sep c = true) run ->
    clear_start rest ->
    SplitOnRuns rest pieces ->
    SplitOnRuns (p ++ run ++ rest) (p :: pieces).

Definition no_space_first (t : str) : Prop :=
  match t with
  | c :: _ => is_space c = false
  | [] => True
  end.

(** [t] is [s] without the whitespace at its two ends. *)
Definition Trimmed (s t : str) : Prop :=
  exists l r,
    s = l ++ t ++ r
    /\ Forall (fun c => is_space c = true) l
    /\ Forall (fun c => is_space c = true) r
    /\ no_space_first t /\ no_space_first (rev t).

(** The trimmed pieces that are members of the vocabulary, in order. *)
Inductive Kept (vocabulary : list str) : list str -> list str -> Prop :=
| Kept_nil : Kept vocabulary [] []
| Kept_member (piece t : str) (pieces out : list str) :
    Trimmed piece t -> In t vocabulary -> Kept vocabulary pieces out ->
    Kept vocabulary (piece :: pieces) (t :: out)
| Kept_other (piece t : str) (pieces out : list str) :
    Trimmed piece t -> ~ In t vocabulary -> Kept vocabulary pieces out ->
    Kept vocabulary (piece :: pieces) out.

Definition Tokens (rawText : str) (pieces : list str) : Prop :=
  exists lowered cleaned,
    Lowered rawText lowered
    /\ ReplacedInTurn (text " ") filler_phrases lowered cleaned
    /\ SplitOnRuns cleaned pieces.

Definition Extracts (vocabulary : list str) (rawText : str)
    (out : list str) : Prop :=
  exists pieces, Tokens rawText pieces /\ Kept vocabulary pieces out.

(** ** Strings: basic facts *)

Lemma str_eqb_eq (a b : str) : str_eqb a b = true <-> a = b.
Proof.
  unfold str_eqb. destruct (list_eq_dec ascii_dec a b); split; congruence.
Qed.

Lemma str_eqb_refl (a : str) : str_eqb a a = true.
Proof. now apply str_eqb_eq. Qed.

Lemma mem_In (x : str) (xs : list str) : mem x xs = true <-> In x xs.
Proof.
  unfold mem. rewrite existsb_exists. split.
  - intros [y [Hy E]]. apply str_eqb_eq in E. now subst.
  - intros H. exists x. split; [assumption | apply str_eqb_refl].
Qed.

Lemma mem_false (x : str) (xs : list str) : mem x xs = false <-> ~ In x xs.
Proof.
  rewrite <- mem_In. destruct (mem x xs); split; congruence.
Qed.

(** ** Narrowing: the surviving rows *)

Lemma mask_by_map {A : Type} (f : A -> bool) (l : list A) :
  map snd (filter fst (combine (map f l) l)) = filter f l.
Proof.
  induction l as [|a l IH]; simpl; [reflexivity|].
  destruct (f a); simpl; now rewrite IH.
Qed.

Lemma filter_twice {A : Type} (f g : A -> bool) (l : list A) :
  filter g (filter f l) = filter (fun a => f a && g a) l.
Proof.
  induction l as [|a l IH]; simpl; [reflexivity|].
  destruct (f a); simpl; [destruct (g a)|]; now rewrite IH.
Qed.

Lemma forallb_pointwise {A : Type} (f g : A -> bool) (l : list A) :
  (forall a, f a = g a) -> forallb f l = forallb g l.
Proof.
  intros E. induction l as [|a l IH]; simpl; [reflexivity|].
  now rewrite E, IH.
Qed.

Lemma filter_all {A : Type} (l : list A) : filter (fun _ => true) l = l.
Proof. induction l as [|a l IH]; simpl; [reflexivity | now rewrite IH]. Qed.

Lemma rows_getitem_mask (df : DataFrame) (sym : str) :
  rows (getitem_mask df (series_eq (getitem df sym) 1))
  = filter (fun r => equals_1 (value_at df r sym)) (rows df).
Proof.
  unfold getitem_mask, getitem, value_at.
  destruct (str_eqb sym (text "prognosis")); simpl.
  - rewrite map_map. exact (mask_by_map (fun _ => false) (rows df)).
  - rewrite <- (mask_by_map
                  (fun r => equals_1 (option_map SNum (cell df r sym)))).
    rewrite map_map. do 3 f_equal. apply map_ext.
    intros r. now destruct (cell df r sym).
Qed.

Lemma value_at_header (df df' : DataFrame) (r : Row) (col : str) :
  symptom_columns df' = symptom_columns df ->
  value_at df' r col = value_at df r col.
Proof. intros E. unfold value_at, cell. now rewrite E. Qed.

Lemma has_all_known_header (df df' : DataFrame) (known : list str) (r : Row) :
  symptom_columns df' = symptom_columns df ->
  has_all_known df' known r = has_all_known df known r.
Proof.
  intros E. unfold has_all_known, columns. rewrite E.
  apply forallb_pointwise. intros sym. now rewrite (value_at_header df df').
Qed.

Lemma candidate_diseases_spec (known : list str) (df : DataFrame) :
  symptom_columns (candidate_diseases known df) = symptom_columns df
  /\ rows (candidate_diseases known df)
     = filter (has_all_known df known) (rows df).
Proof.
  revert df. induction known as [|sym known IH]; intros df.
  - simpl. split; [reflexivity|].
    symmetry. apply filter_all.
  - unfold candidate_diseases in *. simpl fold_left.
    destruct (mem sym (columns df)) eqn:Hcol.
    + destruct (IH (getitem_mask df (series_eq (getitem df sym) 1)))
        as [Hh Hr].
      split; [exact Hh|]. rewrite Hr, rows_getitem_mask, filter_twice.
      apply filter_ext. intros r. simpl. rewrite Hcol. simpl.
      now rewrite (has_all_known_header df).
    + destruct (IH df) as [Hh Hr]. split; [exact Hh|]. rewrite Hr.
      apply filter_ext. intros r. simpl. now rewrite Hcol.
Qed.

Lemma DataFrame_eq (a b : DataFrame) :
  symptom_columns a = symptom_columns b -> rows a = rows b -> a = b.
Proof. destruct a, b; simpl; intros; now subst. Qed.

Lemma forallb_same_elements {A : Type} (f : A -> bool) (l l' : list A) :
  (forall a, In a l <-> In a l') -> forallb f l = forallb f l'.
Proof.
  intros E. destruct (forallb f l) eqn:H1, (forallb f l') eqn:H2;
    try reflexivity.
  - rewrite forallb_forall in H1.
    assert (forallb f l' = true) as H
        by (apply forallb_forall; intros a Ha; apply H1, E, Ha).
    congruence.
  - rewrite forallb_forall in H2.
    assert (forallb f l = true) as H
        by (apply forallb_forall; intros a Ha; apply H2, E, Ha).
    congruence.
Qed.

Lemma has_all_known_columns_only (df : DataFrame) (known : list str) (r : Row) :
  has_all_known df (filter (fun sym => mem sym (columns df)) known) r
  = has_all_known df known r.
Proof.
  unfold has_all_known. induction known as [|sym known IH]; simpl;
    [reflexivity|].
  destruct (mem sym (columns df)) eqn:Hcol; simpl.
  - now rewrite Hcol, IH.
  - exact IH.
Qed.

Lemma filter_length_le {A : Type} (f g : A -> bool) (l : list A) :
  (forall a, f a = true -> g a = true) ->
  length (filter f l) <= length (filter g l).
Proof.
  intros H. induction l as [|a l IH]; simpl; [lia|].
  destruct (f a) eqn:Hf.
  - rewrite (H a Hf). simpl. lia.
  - destruct (g a); simpl; lia.
Qed.

(** C1. The rows that survive narrowing are exactly the rows holding a 1
    under every known symptom that names a column; known symptoms that name
    no column change nothing; and any other enumeration of the same set of
    known symptoms leaves the same candidates. *)
Theorem narrowing_keeps_rows_with_every_known_symptom
    (table : DataFrame) (knownSymptoms reordered : list str) :
  (forall sym, In sym knownSymptoms <-> In sym reordered) ->
  rows (candidate_diseases knownSymptoms table)
  = filter (has_all_known table knownSymptoms) (rows table)
  /\ candidate_diseases
       (filter (fun sym => mem sym (columns table)) knownSymptoms) table
     = candidate_diseases knownSymptoms table
  /\ candidate_diseases reordered table
     = candidate_diseases knownSymptoms table.
Proof.
  intros Hset.
  destruct (candidate_diseases_spec knownSymptoms table) as [Hh Hr].
  split; [exact Hr|]. split.
  - destruct (candidate_diseases_spec
                (filter (fun sym => mem sym (columns table)) knownSymptoms)
                table) as [Hh' Hr'].
    apply DataFrame_eq; [congruence|]. rewrite Hr, Hr'.
    apply filter_ext. intros r. apply has_all_known_columns_only.
  - destruct (candidate_diseases_spec reordered table) as [Hh' Hr'].
    apply DataFrame_eq; [congruence|]. rewrite Hr, Hr'.
    apply filter_ext. intros r. unfold has_all_known.
    apply forallb_same_elements. intros sym. symmetry. apply Hset.
Qed.

Lemma narrowing_keeps_rows_with_every_known_symptom_witness :
  (forall sym, In sym [text "fever"; text "chills"; text "cough"]
               <-> In sym [text "cough"; text "fever"; text "chills";
                           text "cough"])
  /\ rows (candidate_diseases [text "fever"; text "chills"; text "cough"]
             scenario_table)
     = [ {| prognosis := text "flu"; values := [1; 1; 0]%Z |} ].
Proof.
  assert (forall sym, In sym [text "fever"; text "chills"; text "cough"]
               <-> In sym [text "cough"; text "fever"; text "chills";
                           text "cough"]) as H
      by (intros sym; simpl; intuition).
  split; [exact H|].
  destruct (narrowing_keeps_rows_with_every_known_symptom scenario_table
              _ _ H) as [E _].
  rewrite E. reflexivity.
Defined.

(** C7. Adding one symptom to the known symptoms never increases the number
    of surviving candidate rows. *)
Theorem narrow_is_monotonic
    (table : DataFrame) (knownSymptoms extended : list str) (sym : str) :
  (forall s, In s extended <-> s = sym \/ In s knownSymptoms) ->
  length (rows (candidate_diseases extended table))
  <= length (rows (candidate_diseases knownSymptoms table)).
Proof.
  intros Hext.
  destruct (candidate_diseases_spec knownSymptoms table) as [_ ->].
  destruct (candidate_diseases_spec extended table) as [_ ->].
  apply filter_length_le. intros r. unfold has_all_known.
  rewrite !forallb_forall. intros H s Hs. apply H, Hext. now right.
Qed.

Lemma narrow_is_monotonic_witness :
  (forall s, In s [text "cough"; text "fever"]
             <-> s = text "cough" \/ In s [text "fever"])
  /\ length (rows (candidate_diseases [text "cough"; text "fever"]
                     scenario_table))
     <= length (rows (candidate_diseases [text "fever"] scenario_table)).
Proof.
  assert (forall s, In s [text "cough"; text "fever"]
             <-> s = text "cough" \/ In s [text "fever"]) as H
      by (intros s; simpl; intuition).
  split; [exact H|].
  exact (narrow_is_monotonic scenario_table _ _ _ H).
Defined.

(** ** Narrowing: the follow-up symptoms *)

Lemma remaining_symptoms_loop_spec (known : list str) (cd : DataFrame)
    (syms acc remaining : list str) :
  remaining_symptoms_loop known cd syms acc = Ok remaining ->
  remaining = acc ++ filter (open_symptom known cd) syms.
Proof.
  revert acc. induction syms as [|sym syms IH]; intros acc; simpl.
  - intros H. injection H as <-. now rewrite app_nil_r.
  - unfold open_symptom at 1, column_sum_positive.
    destruct (negb (mem sym known) && mem sym (columns cd)); simpl.
    + destruct (gt (series_sum (getitem cd sym)) 0) as [[|]|e]; intros H.
      * apply IH in H. now rewrite <- app_assoc in H.
      * now apply IH.
      * discriminate.
    + apply IH.
Qed.

Lemma numeric_sum_is_a_number (l : list (option Z)) :
  exists z, series_sum (Numeric l) = SNum z.
Proof.
  unfold series_sum.
  destruct (forallb (fun o => match o with Some _ => true | None => false end)
              l); eauto.
Qed.

Lemma numeric_column_compares (cd : DataFrame) (sym : str) :
  sym <> text "prognosis" ->
  exists b, gt (series_sum (getitem cd sym)) 0 = Ok b.
Proof.
  intros Hne. unfold getitem.
  destruct (str_eqb sym (text "prognosis")) eqn:E.
  - apply str_eqb_eq in E. contradiction.
  - destruct (numeric_sum_is_a_number
                (map (fun r => cell cd r sym) (rows cd))) as [z ->].
    simpl. eauto.
Qed.

Lemma remaining_symptoms_loop_total (known : list str) (cd : DataFrame)
    (syms acc : list str) :
  ~ In (text "prognosis") syms ->
  exists remaining, remaining_symptoms_loop known cd syms acc = Ok remaining.
Proof.
  revert acc. induction syms as [|sym syms IH]; intros acc Hno; simpl.
  - eauto.
  - assert (sym <> text "prognosis") as Hne by (intros ->; apply Hno; now left).
    assert (~ In (text "prognosis") syms) as Hno'
        by (intros H; apply Hno; now right).
    destruct (negb (mem sym known) && mem sym (columns cd)).
    + destruct (numeric_column_compares cd sym Hne) as [[|] ->]; now apply IH.
    + now apply IH.
Qed.

Lemma possible_diseases_length (cd : DataFrame) :
  length (possible_diseases cd) = length (rows cd).
Proof. unfold possible_diseases. apply length_map. Qed.

(** C2. The unique-match outcome is reached exactly when one row survives
    the filtering.  With two or more surviving rows, whatever disease names
    they carry, the outcome is the ambiguous one; this half is for tables
    whose header holds no second label that lowercases to ["prognosis"],
    since summing that text column makes the ambiguous branch raise. *)
Theorem unique_match_is_decided_by_row_count
    (table : DataFrame) (knownSymptoms : list str) :
  ((exists diseaseName,
       narrow knownSymptoms table = Ok (UniqueMatch diseaseName))
   <-> length (rows (candidate_diseases knownSymptoms table)) = 1)
  /\ (~ In (text "prognosis") (all_symptoms table) ->
      2 <= length (rows (candidate_diseases knownSymptoms table)) ->
      exists discriminators,
        narrow knownSymptoms table
        = Ok (Ambiguous
                (possible_diseases (candidate_diseases knownSymptoms table))
                discriminators)).
Proof.
  unfold narrow. rewrite <- possible_diseases_length. split.
  - destruct (possible_diseases (candidate_diseases knownSymptoms table))
      as [|d [|d' ds]]; simpl.
    + split; [intros [x H]; discriminate | discriminate].
    + split; [reflexivity | eauto].
    + split; [|discriminate]. intros [x H].
      destruct (remaining_symptoms (all_symptoms table) knownSymptoms
                  (candidate_diseases knownSymptoms table)); discriminate.
  - intros Hwf Htwo.
    destruct (remaining_symptoms_loop_total knownSymptoms
                (candidate_diseases knownSymptoms table)
                (all_symptoms table) [] Hwf) as [remaining Hrem].
    unfold remaining_symptoms. rewrite Hrem.
    destruct (possible_diseases (candidate_diseases knownSymptoms table))
      as [|d [|d' ds]]; simpl in *; [lia | lia | eauto].
Qed.

Lemma unique_match_is_decided_by_row_count_witness :
  ~ In (text "prognosis") (all_symptoms twin_table)
  /\ 2 <= length (rows (candidate_diseases [text "fever"] twin_table))
  /\ exists discriminators,
       narrow [text "fever"] twin_table
       = Ok (Ambiguous [text "flu"; text "flu"] discriminators).
Proof.
  assert (~ In (text "prognosis") (all_symptoms twin_table)) as H
      by (vm_compute; intuition discriminate).
  assert (2 <= length (rows (candidate_diseases [text "fever"] twin_table)))
    as H2 by (vm_compute; lia).
  split; [exact H|]. split; [exact H2|].
  exact (proj2 (unique_match_is_decided_by_row_count twin_table
                  [text "fever"]) H H2).
Defined.

Lemma narrow_ambiguous_inv (table : DataFrame) (known cands discr : list str) :
  narrow known table = Ok (Ambiguous cands discr) ->
  cands = possible_diseases (candidate_diseases known table)
  /\ exists remaining,
       remaining_symptoms (all_symptoms table) known
         (candidate_diseases known table) = Ok remaining
       /\ discr = firstn 5 remaining.
Proof.
  unfold narrow.
  destruct (possible_diseases (candidate_diseases known table))
    as [|d [|d' ds]]; try discriminate.
  destruct (remaining_symptoms (all_symptoms table) known
              (candidate_diseases known table)) as [remaining|e];
    try discriminate.
  intros H. injection H as <- <-. eauto.
Qed.

Lemma In_firstn {A : Type} (n : nat) (l : list A) (a : A) :
  In a (firstn n l) -> In a l.
Proof.
  revert l. induction n as [|n IH]; intros [|b l]; simpl; try tauto.
  intros [H|H]; [now left | right; now apply IH].
Qed.

Lemma prognosis_is_a_column (df : DataFrame) :
  mem (text "prognosis") (columns df) = true.
Proof. apply mem_In. unfold columns. apply in_or_app. right. now left. Qed.

Lemma gt_sum_raises_iff (cd : DataFrame) (sym : str) (e : Exception) :
  gt (series_sum (getitem cd sym)) 0 = Raise e
  <-> sym = text "prognosis" /\ rows cd <> [].
Proof.
  unfold getitem. destruct (str_eqb sym (text "prognosis")) eqn:E.
  - apply str_eqb_eq in E. destruct (rows cd) as [|r rs]; simpl.
    + split; [discriminate | intros [_ H]; congruence].
    + destruct e. split; [intros _; split; [exact E | discriminate]
                         | reflexivity].
  - destruct (numeric_sum_is_a_number
                (map (fun r => cell cd r sym) (rows cd))) as [z ->].
    simpl. split; [discriminate|]. intros [H _].
    apply str_eqb_eq in H. congruence.
Qed.

Lemma remaining_symptoms_loop_raises_iff (us : list str) (cd : DataFrame)
    (syms acc : list str) (e : Exception) :
  remaining_symptoms_loop us cd syms acc = Raise e
  <-> exists sym,
        In sym syms
        /\ negb (mem sym us) && mem sym (columns cd) = true
        /\ gt (series_sum (getitem cd sym)) 0 = Raise e.
Proof.
  revert acc. induction syms as [|sym syms IH]; intros acc; simpl.
  - split; [discriminate | intros [s [[] _]]].
  - destruct (negb (mem sym us) && mem sym (columns cd)) eqn:Hc.
    + destruct (gt (series_sum (getitem cd sym)) 0) as [[|]|e'] eqn:Hg.
      * rewrite IH. split; intros [s [Hin H]].
        -- exists s. split; [now right | exact H].
        -- destruct Hin as [<-|Hin]; [|now exists s].
           destruct H as [_ H]. congruence.
      * rewrite IH. split; intros [s [Hin H]].
        -- exists s. split; [now right | exact H].
        -- destruct Hin as [<-|Hin]; [|now exists s].
           destruct H as [_ H]. congruence.
      * destruct e, e'. split; [|reflexivity]. intros _.
        exists sym. split; [now left | now split].
    + rewrite IH. split; intros [s [Hin H]].
      * exists s. split; [now right | exact H].
      * destruct Hin as [<-|Hin]; [|now exists s].
        destruct H as [H _]. congruence.
Qed.

Lemma index_of_In (x : str) (xs : list str) :
  In x xs -> exists i, index_of x xs = Some i /\ i < length xs.
Proof.
  induction xs as [|y ys IH]; simpl; intros H; [contradiction|].
  destruct (str_eqb x y) eqn:E.
  - exists 0. split; [reflexivity | lia].
  - destruct H as [H|H]; [subst y; rewrite str_eqb_refl in E; discriminate|].
    destruct (IH H) as [i [-> Hi]]. exists (S i). split; [reflexivity | lia].
Qed.

Lemma cell_present (df : DataFrame) (r : Row) (sym : str) :
  In sym (symptom_columns df) ->
  length (values r) = length (symptom_columns df) ->
  exists z, cell df r sym = Some z /\ In z (values r).
Proof.
  intros Hin Hlen. unfold cell.
  destruct (index_of_In sym _ Hin) as [i [-> Hi]].
  destruct (nth_error (values r) i) as [z|] eqn:E.
  - exists z. split; [reflexivity | now apply nth_error_In in E].
  - apply nth_error_None in E. lia.
Qed.

Lemma int64_table_candidates (known : list str) (table : DataFrame) :
  int64_table table -> int64_table (candidate_diseases known table).
Proof.
  intros H r Hr.
  destruct (candidate_diseases_spec known table) as [Hh Hrows].
  rewrite Hrows in Hr. apply filter_In in Hr. rewrite Hh.
  now apply H.
Qed.

Lemma sum_of_present_cells (l : list (option Z)) :
  fold_right (fun o acc => match o with Some z => z + acc | None => acc end)%Z
    0%Z l
  = fold_left Z.add
      (map (fun o => match o with Some z => z | None => 0%Z end) l) 0%Z.
Proof.
  rewrite (fold_symmetric Z.add Z.add_assoc 0%Z)
    by (intros y; apply Z.add_comm).
  induction l as [|[z|] l IH]; simpl; [reflexivity | | exact IH].
  now rewrite IH.
Qed.

Lemma int64_column_sum (cd : DataFrame) (sym : str) :
  int64_table cd -> In sym (symptom_columns cd) ->
  sym <> text "prognosis" ->
  series_sum (getitem cd sym) = SNum (wrap64 (column_total cd sym)).
Proof.
  intros Hcd Hin Hne. unfold getitem.
  destruct (str_eqb sym (text "prognosis")) eqn:E;
    [apply str_eqb_eq in E; contradiction|].
  unfold series_sum.
  assert (forallb (fun o => match o with Some _ => true | None => false end)
            (map (fun r => cell cd r sym) (rows cd)) = true) as ->.
  { apply forallb_forall. intros o Ho. apply in_map_iff in Ho.
    destruct Ho as [r [<- Hr]].
    destruct (cell_present cd r sym Hin (proj1 (Hcd r Hr))) as [z [-> _]].
    reflexivity. }
  rewrite sum_of_present_cells, map_map. reflexivity.
Qed.

(** On int64 columns the test of the loop is the test as worded. *)
Lemma open_symptom_is_discriminating (known : list str) (cd : DataFrame)
    (sym : str) :
  int64_table cd -> sym <> text "prognosis" ->
  open_symptom known cd sym = is_discriminating known cd sym.
Proof.
  intros Hcd Hne. unfold open_symptom, is_discriminating.
  destruct (in_dec str_dec sym known) as [Hk|Hk].
  - apply mem_In in Hk. now rewrite Hk.
  - apply mem_false in Hk. rewrite Hk. simpl.
    destruct (in_dec str_dec sym (columns cd)) as [Hc|Hc].
    + pose proof Hc as Hm. apply mem_In in Hm. rewrite Hm. simpl.
      assert (In sym (symptom_columns cd)) as Hs.
      { unfold columns in Hc. apply in_app_or in Hc.
        destruct Hc as [Hc|[Hc|[]]]; [exact Hc | congruence]. }
      unfold column_sum_positive.
      rewrite (int64_column_sum cd sym Hcd Hs Hne). simpl.
      destruct (Z_lt_dec 0 (wrap64 (column_total cd sym))) as [Hlt|Hge].
      * now apply Z.ltb_lt.
      * now apply Z.ltb_nlt.
    + apply mem_false in Hc. now rewrite Hc.
Qed.

Lemma narrow_ambiguous_has_rows (table : DataFrame)
    (known cands discr : list str) :
  narrow known table = Ok (Ambiguous cands discr) ->
  rows (candidate_diseases known table) <> [].
Proof.
  unfold narrow, possible_diseases. intros H E. rewrite E in H.
  discriminate H.
Qed.

(** C4. The symptoms offered on an ambiguous outcome are the first five, in
    the order of the vocabulary, of the symptoms that are not known yet, are
    columns of the candidate rows and have a column sum over those rows
    strictly above zero; so they are at most five and none of them is known.
    The list can be empty on an ambiguous outcome.  The table has int64
    symptom columns, and the sum is the 64 bit sum the program takes. *)
Theorem discriminators_are_the_first_five_open_symptoms
    (table : DataFrame) (knownSymptoms candidates discriminators : list str) :
  int64_table table ->
  narrow knownSymptoms table = Ok (Ambiguous candidates discriminators) ->
  discriminators
  = firstn 5
      (filter
         (is_discriminating knownSymptoms
            (candidate_diseases knownSymptoms table))
         (all_symptoms table))
  /\ length discriminators <= 5
  /\ (forall sym, In sym discriminators -> ~ In sym knownSymptoms)
  /\ narrow [text "fever"] fever_only_table
     = Ok (Ambiguous [text "flu"; text "cold"] []).
Proof.
  intros Htable H.
  pose proof (narrow_ambiguous_has_rows _ _ _ _ H) as Hrows.
  apply narrow_ambiguous_inv in H.
  destruct H as [_ [remaining [Hrem ->]]].
  pose proof Hrem as Hspec.
  apply remaining_symptoms_loop_spec in Hspec. simpl in Hspec.
  subst remaining.
  assert (filter
            (open_symptom knownSymptoms
               (candidate_diseases knownSymptoms table))
            (all_symptoms table)
          = filter
              (is_discriminating knownSymptoms
                 (candidate_diseases knownSymptoms table))
              (all_symptoms table)) as Hfilter.
  { apply filter_ext_in. intros sym Hin.
    destruct (str_dec sym (text "prognosis")) as [->|Hne].
    - destruct (in_dec str_dec (text "prognosis") knownSymptoms) as [Hk|Hk].
      + unfold open_symptom, is_discriminating.
        destruct (in_dec str_dec (text "prognosis") knownSymptoms);
          [|contradiction].
        apply mem_In in Hk. now rewrite Hk.
      + exfalso. unfold remaining_symptoms in Hrem.
        assert (remaining_symptoms_loop knownSymptoms
                  (candidate_diseases knownSymptoms table)
                  (all_symptoms table) [] = Raise TypeError) as Hr.
        { apply remaining_symptoms_loop_raises_iff.
          exists (text "prognosis"). split; [exact Hin|]. split.
          - apply mem_false in Hk.
            now rewrite Hk, prognosis_is_a_column.
          - now apply gt_sum_raises_iff. }
        congruence.
    - apply open_symptom_is_discriminating; [|exact Hne].
      now apply int64_table_candidates. }
  rewrite Hfilter. split; [reflexivity|]. split; [|split].
  - rewrite length_firstn. lia.
  - intros sym Hin. apply In_firstn, filter_In in Hin.
    destruct Hin as [_ Hd]. unfold is_discriminating in Hd.
    now destruct (in_dec str_dec sym knownSymptoms).
  - reflexivity.
Qed.

Lemma discriminators_are_the_first_five_open_symptoms_witness :
  let candidates := candidate_diseases [text "fever"] itch_table in
  int64_table itch_table
  /\ narrow [text "fever"] itch_table
     = Ok (Ambiguous [text "flu"; text "measles"] [text "cough"; text "rash"])
  /\ [text "cough"; text "rash"]
     = firstn 5
         (filter (is_discriminating [text "fever"] candidates)
            (all_symptoms itch_table))
  /\ ~ In (text "itch") [text "fever"]
  /\ In (text "itch") (columns candidates)
  /\ column_total candidates (text "itch") = 0%Z.
Proof.
  intros candidates.
  assert (int64_table itch_table) as Htable.
  { intros r [<-|[<-|[]]]; (split; [reflexivity|]);
      repeat constructor; unfold in_int64; lia. }
  assert (narrow [text "fever"] itch_table
          = Ok (Ambiguous [text "flu"; text "measles"]
                  [text "cough"; text "rash"])) as H by reflexivity.
  split; [exact Htable|]. split; [exact H|]. split.
  - exact (proj1 (discriminators_are_the_first_five_open_symptoms
                    _ _ _ _ Htable H)).
  - split; [vm_compute; intuition discriminate|].
    split; [vm_compute; tauto | reflexivity].
Defined.

(** ** The two actions *)

Lemma first_occurrences_listing : set_listing first_occurrences.
Proof.
  intros xs. split.
  - apply NoDup_nodup.
  - intros x. apply nodup_In.
Qed.

(** C5. With no recognized symptom in the message, the action utters the
    rephrase prompt and returns no event: every slot stays as it was. *)
Theorem no_recognized_symptom_leaves_the_slots
    (list_of_set : list str -> list str) (disease_symptoms : DataFrame)
    (disease_info : InfoFrame) (dispatcher : list Message)
    (tracker : Tracker) :
  clean_symptom_input (all_symptoms disease_symptoms) (user_message tracker)
  = [] ->
  exists events,
    ActionPredictDisease.run list_of_set disease_symptoms disease_info
      dispatcher tracker
    = Ok (events, dispatcher ++ [could_you_rephrase])
    /\ events = []
    /\ forall k, apply_events events (get_slot tracker) k = get_slot tracker k.
Proof.
  intros Hnone. exists []. unfold ActionPredictDisease.run.
  rewrite Hnone. repeat split.
Qed.

Lemma no_recognized_symptom_leaves_the_slots_witness :
  clean_symptom_input (all_symptoms scenario_table) (text "I have chills")
  = []
  /\ ActionPredictDisease.run first_occurrences scenario_table scenario_info
       []
       {| latest_message_text := Some (text "I have chills");
          get_slot := no_slots |}
     = Ok ([], [could_you_rephrase]).
Proof.
  split; [reflexivity|].
  destruct (no_recognized_symptom_leaves_the_slots first_occurrences
              scenario_table scenario_info []
              {| latest_message_text := Some (text "I have chills");
                 get_slot := no_slots |} eq_refl)
    as [events [Hrun [Hev _]]].
  rewrite Hrun, Hev. reflexivity.
Defined.

(** C6. When no row survives, the action sets the slot [symptoms] to the
    accumulated known symptoms (the stored ones and the new ones, each
    once) and the slot [possible_diseases] to the empty list; the slots
    [predicted_disease] and [remaining_symptoms_to_ask] stay as they
    were. *)
Theorem no_match_sets_symptoms_and_empties_candidates
    (list_of_set : list str -> list str) (disease_symptoms : DataFrame)
    (disease_info : InfoFrame) (dispatcher : list Message)
    (tracker : Tracker) :
  set_listing list_of_set ->
  clean_symptom_input (all_symptoms disease_symptoms) (user_message tracker)
  <> [] ->
  narrow (updated_symptoms list_of_set disease_symptoms tracker)
    disease_symptoms = Ok NoMatch ->
  let known := updated_symptoms list_of_set disease_symptoms tracker in
  exists events,
    ActionPredictDisease.run list_of_set disease_symptoms disease_info
      dispatcher tracker
    = Ok (events, dispatcher ++ [could_not_match])
    /\ events = [SlotSet Slot.symptoms known; SlotSet Slot.possible_diseases []]
    /\ (let slots' := apply_events events (get_slot tracker) in
        slots' Slot.symptoms = Some known
        /\ slots' Slot.possible_diseases = Some []
        /\ slots' Slot.predicted_disease
           = get_slot tracker Slot.predicted_disease
        /\ slots' Slot.remaining_symptoms_to_ask
           = get_slot tracker Slot.remaining_symptoms_to_ask)
    /\ NoDup known
    /\ (forall sym,
           In sym known
           <-> In sym (stored_symptoms tracker)
               \/ In sym (clean_symptom_input (all_symptoms disease_symptoms)
                            (user_message tracker))).
Proof.
  intros Hset Hsome Hnarrow known.
  exists [SlotSet Slot.symptoms known; SlotSet Slot.possible_diseases []].
  split; [|split; [reflexivity|split; [repeat split|]]].
  - unfold ActionPredictDisease.run.
    unfold known, updated_symptoms, narrow in *.
    destruct (clean_symptom_input (all_symptoms disease_symptoms)
                (user_message tracker)) as [|s new]; [congruence|].
    destruct (possible_diseases
                (candidate_diseases
                   (list_of_set (stored_symptoms tracker ++ s :: new))
                   disease_symptoms)) as [|d [|d' ds]];
      [reflexivity | discriminate |].
    destruct (remaining_symptoms (all_symptoms disease_symptoms)
                (list_of_set (stored_symptoms tracker ++ s :: new))
                (candidate_diseases
                   (list_of_set (stored_symptoms tracker ++ s :: new))
                   disease_symptoms)); discriminate.
  - unfold known, updated_symptoms.
    destruct (Hset (stored_symptoms tracker
                    ++ clean_symptom_input (all_symptoms disease_symptoms)
                         (user_message tracker))) as [Hnd Hin].
    split; [exact Hnd|]. intros sym. rewrite Hin. apply in_app_iff.
Qed.

Lemma no_match_sets_symptoms_and_empties_candidates_witness :
  let tracker :=
    {| latest_message_text := Some (text "and also rash");
       get_slot := set_slot Slot.symptoms [text "fever"; text "cough"]
                     no_slots |} in
  set_listing first_occurrences
  /\ clean_symptom_input (all_symptoms scenario_table) (user_message tracker)
     <> []
  /\ narrow (updated_symptoms first_occurrences scenario_table tracker)
       scenario_table = Ok NoMatch
  /\ ActionPredictDisease.run first_occurrences scenario_table scenario_info
       [] tracker
     = Ok ([SlotSet Slot.symptoms [text "fever"; text "cough"; text "rash"];
            SlotSet Slot.possible_diseases []],
           [could_not_match]).
Proof.
  intros tracker.
  assert (clean_symptom_input (all_symptoms scenario_table)
            (user_message tracker) <> []) as Hsome
      by (vm_compute; discriminate).
  assert (narrow (updated_symptoms first_occurrences scenario_table tracker)
            scenario_table = Ok NoMatch) as Hnarrow
      by (vm_compute; reflexivity).
  split; [exact first_occurrences_listing|].
  split; [exact Hsome|]. split; [exact Hnarrow|].
  destruct (no_match_sets_symptoms_and_empties_candidates first_occurrences
              scenario_table scenario_info [] tracker
              first_occurrences_listing Hsome Hnarrow)
    as [events [Hrun [Hev _]]].
  rewrite Hrun, Hev. vm_compute. reflexivity.
Defined.

Lemma lookup_find (name : str) (info : InfoFrame) :
  lookup name info
  = match find (fun r => str_eqb (disease r) name) info with
    | Some r => Some (description r, treatment r, prevention r)
    | None => None
    end.
Proof.
  unfold lookup, where_disease.
  induction info as [|r info IH]; simpl; [reflexivity|].
  destruct (str_eqb (disease r) name); [reflexivity | exact IH].
Qed.

Lemma lookup_none (name : str) (info : InfoFrame) :
  lookup name info = None <-> forall r, In r info -> disease r <> name.
Proof.
  rewrite lookup_find. split.
  - intros H r Hin E.
    destruct (find (fun r => str_eqb (disease r) name) info) eqn:F;
      [discriminate|].
    apply (find_none _ _ F) in Hin. apply str_eqb_eq in E. congruence.
  - intros H.
    destruct (find (fun r => str_eqb (disease r) name) info) eqn:F;
      [|reflexivity].
    apply find_some in F. destruct F as [Hin E].
    apply str_eqb_eq in E. now apply H in Hin.
Qed.

(** C9. [lookup] is total: it yields the three fields of the first row of the
    info table whose disease equals the name, and nothing when no row does.
    With nothing found, the predict action names the disease only and the
    info action says it has no details about it; with the slot
    [predicted_disease] unset, the info action asks which disease to
    explain. *)
Theorem lookup_returns_the_first_matching_row
    (name : str) (info : InfoFrame) (list_of_set : list str -> list str)
    (disease_symptoms : DataFrame) (dispatcher : list Message)
    (tracker : Tracker) :
  lookup name info
  = match find (fun r => str_eqb (disease r) name) info with
    | Some r => Some (description r, treatment r, prevention r)
    | None => None
    end
  /\ (lookup name info = None <-> forall r, In r info -> disease r <> name)
  /\ (get_slot tracker Slot.predicted_disease = None ->
      ActionGetDiseaseInfo.run info dispatcher tracker
      = ([], dispatcher ++ [which_disease]))
  /\ (get_slot tracker Slot.predicted_disease = Some name -> name <> [] ->
      ActionGetDiseaseInfo.run info dispatcher tracker
      = ([], dispatcher
             ++ [match lookup name info with
                 | Some (description, treatment, prevention) =>
                     details_of description treatment prevention
                 | None => no_details_about name
                 end]))
  /\ (clean_symptom_input (all_symptoms disease_symptoms)
        (user_message tracker) <> [] ->
      narrow (updated_symptoms list_of_set disease_symptoms tracker)
        disease_symptoms = Ok (UniqueMatch name) ->
      lookup name info = None ->
      exists events,
        ActionPredictDisease.run list_of_set disease_symptoms info
          dispatcher tracker
        = Ok (events, dispatcher ++ [most_likely name])).
Proof.
  split; [apply lookup_find|]. split; [apply lookup_none|].
  split; [|split].
  - intros Hslot. unfold ActionGetDiseaseInfo.run. now rewrite Hslot.
  - intros Hslot Hne. unfold ActionGetDiseaseInfo.run. rewrite Hslot.
    destruct name as [|c name]; [congruence|].
    now destruct (lookup (c :: name) info) as [[[d t] p]|].
  - intros Hsome Hnarrow Hnone.
    unfold ActionPredictDisease.run, updated_symptoms, narrow in *.
    destruct (clean_symptom_input (all_symptoms disease_symptoms)
                (user_message tracker)) as [|s new]; [congruence|].
    destruct (possible_diseases
                (candidate_diseases
                   (list_of_set (stored_symptoms tracker ++ s :: new))
                   disease_symptoms)) as [|d [|d' ds]];
      [discriminate | |].
    + injection Hnarrow as ->. rewrite Hnone. eauto.
    + destruct (remaining_symptoms (all_symptoms disease_symptoms)
                  (list_of_set (stored_symptoms tracker ++ s :: new))
                  (candidate_diseases
                     (list_of_set (stored_symptoms tracker ++ s :: new))
                     disease_symptoms)); discriminate.
Qed.

Lemma lookup_returns_the_first_matching_row_witness :
  let tracker :=
    {| latest_message_text := None;
       get_slot := set_slot Slot.predicted_disease (text "malaria")
                     no_slots |} in
  get_slot tracker Slot.predicted_disease = Some (text "malaria")
  /\ text "malaria" <> []
  /\ ActionGetDiseaseInfo.run scenario_info [] tracker
     = ([], [no_details_about (text "malaria")]).
Proof.
  intros tracker.
  assert (text "malaria" <> []) as Hne by (vm_compute; discriminate).
  split; [reflexivity|]. split; [exact Hne|].
  destruct (lookup_returns_the_first_matching_row (text "malaria")
              scenario_info first_occurrences scenario_table [] tracker)
    as [_ [_ [_ [Hinfo _]]]].
  rewrite (Hinfo eq_refl Hne). reflexivity.
Defined.

(** C10. The info action returns no event on any of its paths, so it leaves
    every slot as it was. *)
Theorem get_disease_info_returns_no_event
    (disease_info : InfoFrame) (dispatcher : list Message)
    (tracker : Tracker) :
  fst (ActionGetDiseaseInfo.run disease_info dispatcher tracker) = []
  /\ forall k,
       apply_events
         (fst (ActionGetDiseaseInfo.run disease_info dispatcher tracker))
         (get_slot tracker) k
       = get_slot tracker k.
Proof.
  assert (fst (ActionGetDiseaseInfo.run disease_info dispatcher tracker) = [])
    as H.
  { unfold ActionGetDiseaseInfo.run.
    destruct (get_slot tracker Slot.predicted_disease) as [[|c d]|];
      try reflexivity.
    now destruct (lookup (c :: d) disease_info) as [[[x y] z]|]. }
  split; [exact H|]. intros k. now rewrite H.
Qed.


(** ** Strings: [replace] *)

Lemma startswith_app (w s : str) :
  startswith w s = true <-> exists q, s = w ++ q.
Proof.
  revert s. induction w as [|a w IH]; intros s; simpl.
  - split; eauto.
  - destruct s as [|b s].
    + split; [discriminate | intros [q H]; discriminate].
    + destruct (ascii_dec a b) as [->|Hne].
      * rewrite IH. split; intros [q H]; exists q; congruence.
      * split; [discriminate | intros [q H]; congruence].
Qed.

Lemma replace_from_skip (old new : str) (k : nat) (s : str) :
  replace_from old new k s = replace_from old new 0 (skipn k s).
Proof.
  revert k. induction s as [|c s IH]; intros k.
  - now destruct k.
  - destruct k as [|k]; [reflexivity|]. simpl skipn. rewrite <- IH.
    reflexivity.
Qed.

Lemma replace_nil (old new : str) : old <> [] -> replace old new [] = [].
Proof. destruct old; [congruence | reflexivity]. Qed.

Lemma replace_match (old new q : str) :
  old <> [] -> replace old new (old ++ q) = new ++ replace old new q.
Proof.
  destruct old as [|a old]; [congruence|]. intros _.
  unfold replace. change ((a :: old) ++ q) with (a :: (old ++ q)).
  unfold replace_from at 1; fold replace_from.
  assert (startswith (a :: old) (a :: old ++ q) = true) as ->
      by (apply startswith_app; now exists q).
  rewrite replace_from_skip.
  assert (length (a :: old) - 1 = length old) as -> by (simpl; lia).
  now rewrite skipn_app, skipn_all, Nat.sub_diag.
Qed.

Lemma replace_no_match (old new : str) (c : ascii) (s : str) :
  old <> [] -> startswith old (c :: s) = false ->
  replace old new (c :: s) = c :: replace old new s.
Proof.
  destruct old as [|a old]; [congruence|]. intros _ H.
  unfold replace. unfold replace_from at 1; fold replace_from.
  now rewrite H.
Qed.

(** Induction along the scan of [replace]. *)
Lemma replace_scan_ind (old : str) (Hne : old <> []) (Q : str -> Prop) :
  Q [] ->
  (forall q, Q q -> Q (old ++ q)) ->
  (forall c s, startswith old (c :: s) = false -> Q s -> Q (c :: s)) ->
  forall s, Q s.
Proof.
  intros Hnil Hmatch Hstep s.
  remember (length s) as n eqn:Hn. revert s Hn.
  induction n as [n IH] using lt_wf_ind. intros s Hn.
  destruct s as [|c s]; [exact Hnil|].
  destruct (startswith old (c :: s)) eqn:Hsw.
  - apply startswith_app in Hsw. destruct Hsw as [q Hq]. rewrite Hq.
    apply Hmatch. apply (IH (length q)); [|reflexivity].
    subst n. rewrite Hq, length_app.
    destruct old; [congruence | simpl; lia].
  - apply Hstep; [exact Hsw|].
    apply (IH (length s)); [subst n; simpl; lia | reflexivity].
Qed.

(** ** Strings: occurrences *)

Lemma occurs_nil (s : str) : occurs [] s.
Proof. now exists [], s. Qed.

Lemma occurs_in_nil (w : str) : occurs w [] -> w = [].
Proof.
  intros [p [q H]]. symmetry in H.
  apply app_eq_nil in H. destruct H as [_ H].
  now apply app_eq_nil in H.
Qed.

Lemma occurs_cons_inv (w : str) (c : ascii) (s : str) :
  occurs w (c :: s) -> (exists q, c :: s = w ++ q) \/ occurs w s.
Proof.
  intros [[|a p] [q H]]; simpl in H.
  - left. now exists q.
  - right. injection H as _ H. now exists p, q.
Qed.

Lemma occurs_cons (w : str) (c : ascii) (s : str) :
  occurs w s -> occurs w (c :: s).
Proof. intros [p [q ->]]. now exists (c :: p), q. Qed.

Lemma occurs_app_l (w a s : str) : occurs w s -> occurs w (a ++ s).
Proof.
  intros H. induction a as [|c a IH]; [exact H | now apply occurs_cons].
Qed.

Lemma occurs_app_r (w s b : str) : occurs w s -> occurs w (s ++ b).
Proof.
  intros [p [q ->]]. exists p, (q ++ b). now rewrite <- !app_assoc.
Qed.

Lemma occurs_trans (u w s : str) : occurs u w -> occurs w s -> occurs u s.
Proof.
  intros [p [q ->]] [p' [q' ->]]. exists (p' ++ p), (q ++ q').
  now rewrite <- !app_assoc.
Qed.

Lemma occurs_In (w s : str) (c : ascii) : occurs w s -> In c w -> In c s.
Proof.
  intros [p [q ->]] H. apply in_or_app. right. apply in_or_app. now left.
Qed.

Lemma prefix_around (u a b q : str) (x : ascii) :
  ~ In x u -> a ++ x :: b = u ++ q -> exists q', a = u ++ q'.
Proof.
  intros Hx. revert a. induction u as [|d u IH]; intros a H.
  - now exists a.
  - assert (~ In x u) as Hx' by (intros Hi; apply Hx; now right).
    destruct a as [|c a]; simpl in H; injection H as -> H.
    + exfalso. apply Hx. now left.
    + destruct (IH Hx' a H) as [q' ->]. now exists q'.
Qed.

(** An occurrence avoids a character it does not hold. *)
Lemma occurs_around (u a b : str) (x : ascii) :
  ~ In x u -> occurs u (a ++ x :: b) -> occurs u a \/ occurs u b.
Proof.
  intros Hx. induction a as [|c a IH]; intros H.
  - apply occurs_cons_inv in H. destruct H as [[q H]|H]; [|now right].
    destruct (prefix_around u [] b q x Hx H) as [q' E].
    left. exists [], q'. exact E.
  - apply occurs_cons_inv in H. destruct H as [[q H]|H].
    + destruct (prefix_around u (c :: a) b q x Hx H) as [q' E].
      left. exists [], q'. exact E.
    + destruct (IH H) as [Ho|Ho]; [left; now apply occurs_cons | now right].
Qed.

(** ** Strings: what [replace] by one character does *)

Section ReplaceByChar.

Variable old : str.
Variable x : ascii.
Hypothesis old_nonempty : old <> [].

(** A prefix free of [x] was there before. *)
Lemma prefix_of_replace (s u : str) :
  ~ In x u ->
  (exists q, replace old [x] s = u ++ q) -> exists q, s = u ++ q.
Proof.
  intros Hx. revert u Hx.
  induction s as [| q IH | c s Hsw IH] using (replace_scan_ind old old_nonempty); intros u Hx [r H].
  - rewrite replace_nil in H by exact old_nonempty.
    destruct u; [now exists [] | discriminate].
  - rewrite replace_match in H by exact old_nonempty. simpl in H.
    destruct u as [|d u]; [now exists (old ++ q)|].
    injection H as -> _. exfalso. apply Hx. now left.
  - rewrite replace_no_match in H by assumption.
    destruct u as [|d u]; [now exists (c :: s)|].
    injection H as <- H.
    assert (~ In x u) as Hx' by (intros Hi; apply Hx; now right).
    destruct (IH u Hx' (ex_intro _ r H)) as [q' ->]. now exists q'.
Qed.

(** A substring free of [x] was there before. *)
Lemma occurs_in_replace (s u : str) :
  ~ In x u -> occurs u (replace old [x] s) -> occurs u s.
Proof.
  intros Hx.
  induction s as [| q IH | c s Hsw IH] using (replace_scan_ind old old_nonempty); intros H.
  - now rewrite replace_nil in H by exact old_nonempty.
  - rewrite replace_match in H by exact old_nonempty. simpl in H.
    apply occurs_cons_inv in H. destruct H as [[r H]|H].
    + destruct u as [|d u]; [apply occurs_nil|].
      injection H as -> _. exfalso. apply Hx. now left.
    + apply occurs_app_l. now apply IH.
  - pose proof H as H0.
    rewrite replace_no_match in H by assumption.
    apply occurs_cons_inv in H. destruct H as [[r H]|H].
    + rewrite <- (replace_no_match old [x] c s) in H by assumption.
      destruct (prefix_of_replace (c :: s) u Hx (ex_intro _ r H)) as [q' E].
      exists [], q'. exact E.
    + apply occurs_cons. now apply IH.
Qed.

(** When [x] is not a character of [old], no occurrence of [old] is left. *)
Lemma replace_leaves_none (s : str) :
  ~ In x old -> ~ occurs old (replace old [x] s).
Proof.
  intros Hx.
  induction s as [| q IH | c s Hsw IH] using (replace_scan_ind old old_nonempty); intros H.
  - rewrite replace_nil in H by exact old_nonempty.
    apply occurs_in_nil in H. contradiction.
  - rewrite replace_match in H by exact old_nonempty. simpl in H.
    apply occurs_cons_inv in H. destruct H as [[r H]|H]; [|now apply IH].
    destruct old as [|d o]; [contradiction|].
    injection H as -> _. apply Hx. now left.
  - rewrite replace_no_match in H by assumption.
    apply occurs_cons_inv in H. destruct H as [[r H]|H]; [|now apply IH].
    rewrite <- (replace_no_match old [x] c s) in H by assumption.
    destruct (prefix_of_replace (c :: s) old Hx (ex_intro _ r H))
      as [q' E].
    assert (startswith old (c :: s) = true) as Hs
        by (apply startswith_app; now exists q').
    congruence.
Qed.

End ReplaceByChar.

(** With no occurrence of [old], [replace] changes nothing. *)
Lemma replace_without_occurrence (old new s : str) :
  old <> [] -> ~ occurs old s -> replace old new s = s.
Proof.
  intros Hne.
  induction s as [| q IH | c s Hsw IH] using (replace_scan_ind old Hne); intros Hno.
  - now apply replace_nil.
  - exfalso. apply Hno. now exists [], q.
  - rewrite replace_no_match by assumption. f_equal. apply IH.
    intros H. apply Hno. now apply occurs_cons.
Qed.

Lemma replace_Forall (P : ascii -> Prop) (old new s : str) :
  old <> [] -> Forall P new -> Forall P s -> Forall P (replace old new s).
Proof.
  intros Hne Hnew.
  induction s as [| q IH | c s Hsw IH] using (replace_scan_ind old Hne); intros Hs.
  - now rewrite replace_nil.
  - rewrite replace_match by exact Hne. apply Forall_app in Hs.
    apply Forall_app. split; [exact Hnew | apply IH, Hs].
  - rewrite replace_no_match by assumption. inversion Hs; subst.
    constructor; [assumption | now apply IH].
Qed.

(** ** Strings: the filler words *)

Lemma space_is_space : text " " = [" "%char].
Proof. reflexivity. Qed.

Lemma remove_all_app (l1 l2 : list str) (t : str) :
  remove_all (l1 ++ l2) t = remove_all l2 (remove_all l1 t).
Proof. apply fold_left_app. Qed.

Lemma occurs_in_remove_all (words : list str) (t u : str) :
  Forall (fun w => w <> []) words ->
  ~ In " "%char u -> occurs u (remove_all words t) -> occurs u t.
Proof.
  intros Hne Hu. revert t.
  induction Hne as [|w words Hw _ IH]; intros t H; [exact H|].
  simpl in H. apply IH in H. rewrite space_is_space in H.
  now apply (occurs_in_replace w " "%char Hw) in H.
Qed.

Lemma remove_all_leaves_none (words : list str) (t w : str) :
  Forall (fun w => w <> []) words ->
  In w words -> ~ In " "%char w -> ~ occurs w (remove_all words t).
Proof.
  intros Hne Hin Hw H.
  apply in_split in Hin. destruct Hin as [l1 [l2 ->]].
  apply Forall_app in Hne. destruct Hne as [_ Hne].
  inversion Hne as [|? ? Hw0 Hne2]; subst.
  rewrite remove_all_app in H. simpl in H.
  apply (occurs_in_remove_all l2 _ w Hne2 Hw) in H.
  rewrite space_is_space in H.
  now apply (replace_leaves_none w " "%char Hw0) in H.
Qed.

Lemma remove_all_Forall (P : ascii -> Prop) (words : list str) (t : str) :
  Forall (fun w => w <> []) words ->
  P " "%char -> Forall P t -> Forall P (remove_all words t).
Proof.
  intros Hne Hsp. revert t.
  induction Hne as [|w words Hw _ IH]; intros t Ht; [exact Ht|].
  simpl. apply IH. apply replace_Forall; [exact Hw | | exact Ht].
  rewrite space_is_space. now constructor.
Qed.

Lemma remove_all_without_occurrence (words : list str) (t : str) :
  Forall (fun w => w <> []) words ->
  (forall w, In w words -> ~ occurs w t) -> remove_all words t = t.
Proof.
  intros Hne. induction Hne as [|w words Hw _ IH]; intros Hno;
    [reflexivity|].
  simpl. rewrite replace_without_occurrence;
    [| exact Hw | apply Hno; now left].
  apply IH. intros w' Hin. apply Hno. now right.
Qed.

Lemma filler_words_nonempty : Forall (fun w => w <> []) filler_words.
Proof. repeat constructor; discriminate. Qed.

Lemma filler_words_shaped : forallb word_shaped filler_words = true.
Proof. reflexivity. Qed.

(** ** Strings: characters *)

Lemma lower_char_idempotent (c : ascii) : lower_fixed (lower_char c).
Proof.
  unfold lower_fixed.
  destruct c as [[] [] [] [] [] [] [] []]; reflexivity.
Qed.

Lemma sep_lower_fixed (c : ascii) : is_sep c = true -> lower_fixed c.
Proof.
  unfold lower_fixed.
  destruct c as [[] [] [] [] [] [] [] []]; intros H;
    try reflexivity; discriminate H.
Qed.

Lemma space_not_sep_free (c : ascii) : is_sep c = false -> is_space c = false.
Proof. unfold is_sep. intros H. now apply orb_false_elim in H. Qed.

Lemma lower_of_fixed (s : str) : Forall lower_fixed s -> lower s = s.
Proof.
  intros H. unfold lower. induction H as [|c s Hc _ IH]; simpl;
    [reflexivity|]. now rewrite Hc, IH.
Qed.

Lemma lower_is_fixed (s : str) : Forall lower_fixed (lower s).
Proof.
  unfold lower. induction s as [|c s IH]; simpl; constructor;
    [apply lower_char_idempotent | exact IH].
Qed.

(** ** Strings: [strip] and [re.split] *)

Lemma lstrip_without_space (s : str) :
  Forall (fun c => is_space c = false) s -> lstrip s = s.
Proof. intros H. destruct H as [|c s Hc _]; simpl; [|rewrite Hc]; reflexivity. Qed.

Lemma strip_without_space (s : str) :
  Forall (fun c => is_space c = false) s -> strip s = s.
Proof.
  intros H. unfold strip. rewrite (lstrip_without_space s H).
  rewrite lstrip_without_space; [apply rev_involutive|].
  apply Forall_forall. intros c Hc. apply in_rev in Hc.
  now apply (proj1 (Forall_forall _ _) H).
Qed.

Lemma strip_token (t : str) :
  Forall (fun c => is_sep c = false) t -> strip t = t.
Proof.
  intros H. apply strip_without_space.
  apply Forall_impl with (2 := H). exact space_not_sep_free.
Qed.

Lemma re_split_cons (c : ascii) (s : str) :
  re_split (c :: s)
  = if is_sep c then
      match s with
      | c' :: _ => if is_sep c' then re_split s else [] :: re_split s
      | [] => [] :: re_split s
      end
    else
      match re_split s with
      | t :: ts => (c :: t) :: ts
      | [] => [[c]]
      end.
Proof. reflexivity. Qed.

(** The pieces of [re.split]: the first is a prefix, the others occur
    further on, and none holds a separator. *)
Lemma re_split_pieces (s : str) :
  exists h tl,
    re_split s = h :: tl
    /\ Forall (fun c => is_sep c = false) h
    /\ (exists q, s = h ++ q)
    /\ Forall (fun t => Forall (fun c => is_sep c = false) t /\ occurs t s) tl.
Proof.
  induction s as [|c s IH].
  - exists [], []. repeat split; try constructor. now exists [].
  - destruct IH as [h [tl [E [Hh [[q Hq] Htl]]]]].
    assert (Forall (fun t => Forall (fun c => is_sep c = false) t
                             /\ occurs t (c :: s)) tl) as Htl'.
    { apply Forall_impl with (2 := Htl). intros t [Ht Ho].
      split; [exact Ht | now apply occurs_cons]. }
    assert (occurs h (c :: s)) as Hoh
        by (apply occurs_cons; exists [], q; exact Hq).
    rewrite re_split_cons. destruct (is_sep c) eqn:Hc.
    + destruct s as [|c' s].
      * exists [], [[]]. split; [reflexivity|]. split; [constructor|].
        split; [now exists [c]|].
        constructor; [|constructor]. split; [constructor | apply occurs_nil].
      * destruct (is_sep c') eqn:Hc'.
        -- exists [], tl.
           assert (h = []) as ->.
           { destruct h as [|d h]; [reflexivity|].
             simpl in Hq. injection Hq as -> _.
             inversion Hh; subst. congruence. }
           split; [exact E|]. split; [constructor|].
           split; [now exists (c :: c' :: s) | exact Htl'].
        -- exists [], (h :: tl). rewrite E.
           split; [reflexivity|]. split; [constructor|].
           split; [now exists (c :: c' :: s)|].
           constructor; [split; [exact Hh | exact Hoh] | exact Htl'].
    + rewrite E. exists (c :: h), tl.
      split; [reflexivity|]. split; [now constructor|].
      split; [|exact Htl']. exists q. simpl. now rewrite Hq.
Qed.

Lemma re_split_token (s t : str) :
  In t (re_split s) ->
  Forall (fun c => is_sep c = false) t /\ occurs t s.
Proof.
  destruct (re_split_pieces s) as [h [tl [-> [Hh [[q Hq] Htl]]]]].
  intros [<-|Hin].
  - split; [exact Hh | exists [], q; exact Hq].
  - exact (proj1 (Forall_forall _ _) Htl t Hin).
Qed.

Lemma re_split_nonempty (s : str) : re_split s <> [].
Proof. destruct (re_split_pieces s) as [h [tl [-> _]]]. discriminate. Qed.

Lemma re_split_of_token (t : str) :
  Forall (fun c => is_sep c = false) t -> re_split t = [t].
Proof.
  intros H. induction H as [|c t Hc _ IH]; [reflexivity|].
  now rewrite re_split_cons, Hc, IH.
Qed.

Lemma re_split_after_token (t s : str) :
  Forall (fun c => is_sep c = false) t ->
  re_split (t ++ s)
  = match re_split s with
    | h :: tl => (t ++ h) :: tl
    | [] => [t]
    end.
Proof.
  intros H. induction H as [|c t Hc _ IH]; simpl app.
  - pose proof (re_split_nonempty s). now destruct (re_split s).
  - rewrite re_split_cons, Hc, IH. now destruct (re_split s).
Qed.

Lemma re_split_after_separator (sep : str) (c : ascii) (s : str) :
  sep <> [] -> Forall (fun a => is_sep a = true) sep -> is_sep c = false ->
  re_split (sep ++ c :: s) = [] :: re_split (c :: s).
Proof.
  intros Hne H Hc. induction H as [|a sep Ha Hsep IH]; [congruence|].
  destruct sep as [|b sep].
  - change ([a] ++ c :: s) with (a :: c :: s).
    rewrite re_split_cons, Ha. cbv iota. now rewrite Hc.
  - change ((a :: b :: sep) ++ c :: s) with (a :: b :: (sep ++ c :: s)).
    rewrite re_split_cons, Ha. cbv iota.
    inversion Hsep as [|? ? Hb _]; subst. rewrite Hb.
    apply IH. discriminate.
Qed.

Lemma join_cons (sep t : str) (u : str) (rest : list str) :
  join sep (t :: u :: rest) = t ++ sep ++ join sep (u :: rest).
Proof. reflexivity. Qed.

Lemma join_head (sep : str) (c : ascii) (t : str) (rest : list str) :
  exists s, join sep ((c :: t) :: rest) = c :: s.
Proof.
  destruct rest as [|u rest]; [now exists t|].
  rewrite join_cons. simpl. eauto.
Qed.

Lemma re_split_join (sep : str) (toks : list str) :
  sep <> [] -> Forall (fun a => is_sep a = true) sep ->
  toks <> [] ->
  Forall (fun t => t <> [] /\ Forall (fun c => is_sep c = false) t) toks ->
  re_split (join sep toks) = toks.
Proof.
  intros Hne Hsep Hnil H.
  assert (toks = [] \/ re_split (join sep toks) = toks) as [E|E];
    [| contradiction | exact E].
  clear Hnil. induction H as [|t toks [Ht Hfree] Htoks IH]; [now left|]. right.
  assert (toks <> [] -> re_split (join sep toks) = toks) as IH'
      by (intros Hn; destruct IH as [E|IH]; [contradiction | exact IH]).
  clear IH. rename IH' into IH.
  destruct toks as [|u rest]; [now apply re_split_of_token|].
  rewrite join_cons, (re_split_after_token t _ Hfree).
  inversion Htoks as [|? ? [Hu Hufree] _]; subst.
  destruct u as [|c u]; [congruence|].
  destruct (join_head sep c u rest) as [s Es].
  rewrite Es, re_split_after_separator; try assumption.
  - rewrite <- Es, IH by discriminate. now rewrite app_nil_r.
  - now inversion Hufree.
Qed.

Lemma join_Forall (P : ascii -> Prop) (sep : str) (toks : list str) :
  Forall P sep -> Forall (Forall P) toks -> Forall P (join sep toks).
Proof.
  intros Hsep H. induction H as [|t toks Ht _ IH]; [constructor|].
  destruct toks as [|u rest]; [exact Ht|].
  rewrite join_cons. apply Forall_app. split; [exact Ht|].
  apply Forall_app. now split.
Qed.

(** ** Strings: words between separators *)

Lemma word_shaped_head (w : str) :
  word_shaped w = true -> exists c w', w = c :: w' /\ is_sep c = false.
Proof.
  unfold word_shaped. destruct w as [|c w']; [discriminate|].
  destruct (rev (c :: w')); [discriminate|]. intros H.
  apply andb_prop in H. destruct H as [H _].
  apply andb_prop in H. destruct H as [H _].
  exists c, w'. split; [reflexivity | now destruct (is_sep c)].
Qed.

Lemma word_shaped_last (w : str) :
  word_shaped w = true -> exists d r, rev w = d :: r /\ is_sep d = false.
Proof.
  unfold word_shaped. destruct w as [|c w']; [discriminate|].
  destruct (rev (c :: w')) as [|d r]; [discriminate|]. intros H.
  apply andb_prop in H. destruct H as [H _].
  apply andb_prop in H. destruct H as [_ H].
  exists d, r. split; [reflexivity | now destruct (is_sep d)].
Qed.

Lemma word_shaped_no_comma (w : str) :
  word_shaped w = true -> ~ In ","%char w.
Proof.
  unfold word_shaped. destruct w as [|c w']; [discriminate|].
  destruct (rev (c :: w')) as [|d r]; [discriminate|]. intros H Hin.
  apply andb_prop in H. destruct H as [_ H].
  assert (existsb (fun x => (code x =? 44)%N) (c :: w') = true) as E
      by (apply existsb_exists; now exists ","%char).
  rewrite E in H. discriminate.
Qed.

Lemma occurs_rev (w s : str) : occurs w s -> occurs (rev w) (rev s).
Proof.
  intros [p [q ->]]. exists (rev q), (rev p).
  now rewrite !rev_app_distr, app_assoc.
Qed.

Lemma occurs_past_separators (w a s : str) (c : ascii) (w' : str) :
  w = c :: w' -> is_sep c = false ->
  Forall (fun x => is_sep x = true) a -> occurs w (a ++ s) -> occurs w s.
Proof.
  intros -> Hc Ha. induction Ha as [|x a Hx _ IH]; intros H; [exact H|].
  simpl in H. apply occurs_cons_inv in H. destruct H as [[q H]|H].
  - simpl in H. injection H as -> _. congruence.
  - now apply IH.
Qed.

Lemma occurs_before_separators (w s b : str) :
  word_shaped w = true ->
  Forall (fun x => is_sep x = true) b -> occurs w (s ++ b) -> occurs w s.
Proof.
  intros Hw Hb H. destruct (word_shaped_last w Hw) as [d [r [E Hd]]].
  apply occurs_rev in H. rewrite rev_app_distr in H.
  apply (occurs_past_separators (rev w) (rev b) (rev s) d r E Hd) in H.
  - apply occurs_rev in H. now rewrite !rev_involutive in H.
  - apply Forall_forall. intros x Hx. apply in_rev in Hx.
    now apply (proj1 (Forall_forall _ _) Hb).
Qed.

(** A word that occurs in a joined list occurs in one of its members, when
    the separator holds a comma. *)
Lemma join_without_occurrence (w sep : str) (toks : list str) :
  word_shaped w = true ->
  Forall (fun a => is_sep a = true) sep -> In ","%char sep ->
  Forall (fun t => ~ occurs w t) toks ->
  ~ occurs w (join sep toks).
Proof.
  intros Hw Hsep Hcomma H.
  destruct (word_shaped_head w Hw) as [c [w' [Ew Hc]]].
  induction H as [|t toks Ht _ IH].
  - simpl. intros Ho. apply occurs_in_nil in Ho. congruence.
  - destruct toks as [|u rest]; [exact Ht|].
    rewrite join_cons. intros Ho.
    remember (join sep (u :: rest)) as J eqn:EJ. clear EJ.
    apply in_split in Hcomma. destruct Hcomma as [sl [sr Esep]].
    assert (Forall (fun a => is_sep a = true) sl
            /\ Forall (fun a => is_sep a = true) sr) as [Hsl Hsr].
    { rewrite Esep in Hsep. apply Forall_app in Hsep.
      destruct Hsep as [Hsl Hsr]. split; [exact Hsl|].
      now apply Forall_inv_tail in Hsr. }
    rewrite Esep in Ho.
    replace (t ++ (sl ++ ","%char :: sr) ++ J)
      with ((t ++ sl) ++ ","%char :: (sr ++ J)) in Ho
      by (now rewrite <- !app_assoc).
    apply occurs_around in Ho; [|now apply word_shaped_no_comma].
    destruct Ho as [Ho|Ho].
    + apply Ht. now apply (occurs_before_separators w t sl Hw Hsl).
    + apply IH.
      now apply (occurs_past_separators w sr _ c w' Ew Hc Hsr).
Qed.

(** ** [clean_symptom_input] *)

Lemma map_filter_swap {A : Type} (g : A -> A) (f : A -> bool) (l : list A) :
  map g (filter (fun t => f (g t)) l) = filter f (map g l).
Proof.
  induction l as [|a l IH]; simpl; [reflexivity|].
  destruct (f (g a)); simpl; now rewrite IH.
Qed.

Lemma filter_nil_iff {A : Type} (f : A -> bool) (l : list A) :
  filter f l = [] <-> forall a, In a l -> f a = false.
Proof.
  induction l as [|a l IH]; simpl.
  - split; [intros _ a [] | reflexivity].
  - destruct (f a) eqn:E.
    + split; [discriminate|]. intros H.
      specialize (H a (or_introl eq_refl)). congruence.
    + rewrite IH. split.
      * intros H b [<-|Hb]; [exact E | now apply H].
      * intros H b Hb. apply H. now right.
Qed.

Lemma clean_symptom_input_unfold (vocabulary : list str) (user_input : str) :
  clean_symptom_input vocabulary user_input
  = filter (fun t => mem t vocabulary)
      (map strip (re_split (cleaned_text user_input))).
Proof.
  unfold clean_symptom_input, cleaned_text, remove_all.
  apply (map_filter_swap strip (fun t => mem t vocabulary)).
Qed.

Lemma cleaned_text_tokens (user_input t : str) :
  In t (map strip (re_split (cleaned_text user_input))) ->
  Forall (fun c => is_sep c = false) t
  /\ Forall lower_fixed t
  /\ forall w, In w filler_words -> ~ occurs w t.
Proof.
  intros Hin. apply in_map_iff in Hin. destruct Hin as [t0 [E Hin]].
  apply re_split_token in Hin. destruct Hin as [Hfree Hocc].
  rewrite (strip_token t0 Hfree) in E. subst t0.
  split; [exact Hfree|]. split.
  - assert (Forall lower_fixed (cleaned_text user_input)) as Hl.
    { unfold cleaned_text.
      apply remove_all_Forall;
        [exact filler_words_nonempty | reflexivity | apply lower_is_fixed]. }
    apply Forall_forall. intros c Hc.
    apply (proj1 (Forall_forall _ _) Hl). now apply (occurs_In t).
  - intros w Hw Ho.
    destruct (in_dec ascii_dec " "%char w) as [Hsp|Hsp].
    + assert (In " "%char t) as Hin by now apply (occurs_In w).
      apply (proj1 (Forall_forall _ _) Hfree) in Hin. discriminate Hin.
    + apply (remove_all_leaves_none filler_words (lower user_input) w
               filler_words_nonempty Hw Hsp).
      now apply (occurs_trans w t).
Qed.

Lemma clean_symptom_input_tokens (vocabulary : list str) (user_input : str) :
  Forall (clean_token vocabulary)
    (clean_symptom_input vocabulary user_input).
Proof.
  rewrite clean_symptom_input_unfold. apply Forall_forall. intros t Hin.
  apply filter_In in Hin. destruct Hin as [Hin Hmem].
  apply mem_In in Hmem. apply cleaned_text_tokens in Hin.
  unfold clean_token. tauto.
Qed.

(** Cleaning the joined tokens gives the tokens back. *)
Lemma clean_joined_tokens (vocabulary : list str) (sep : str)
    (toks : list str) :
  ~ In [] vocabulary ->
  Forall (fun c => is_sep c = true) sep -> In ","%char sep ->
  Forall (clean_token vocabulary) toks ->
  clean_symptom_input vocabulary (join sep toks) = toks.
Proof.
  intros Hempty Hsep Hcomma Htoks.
  assert (sep <> []) as Hne by (intros ->; contradiction).
  rewrite clean_symptom_input_unfold. unfold cleaned_text.
  rewrite lower_of_fixed.
  2:{ apply join_Forall.
      - apply Forall_impl with (2 := Hsep). exact sep_lower_fixed.
      - apply Forall_impl with (2 := Htoks). unfold clean_token. tauto. }
  rewrite remove_all_without_occurrence; [|exact filler_words_nonempty|].
  2:{ intros w Hw. apply join_without_occurrence; try assumption.
      - exact (proj1 (forallb_forall _ _) filler_words_shaped w Hw).
      - apply Forall_impl with (2 := Htoks). unfold clean_token.
        intros t Ht. now apply Ht. }
  destruct toks as [|t toks].
  - simpl. destruct (mem (strip []) vocabulary) eqn:E; [|reflexivity].
    apply mem_In in E. contradiction.
  - rewrite re_split_join; try assumption; try discriminate.
    + induction Htoks as [|u us [Hin [Hfree _]] _ IH]; [reflexivity|].
      simpl. rewrite (strip_token u Hfree).
      apply mem_In in Hin. now rewrite Hin, IH.
    + apply Forall_impl with (2 := Htoks). unfold clean_token.
      intros u [Hin [Hfree _]]. split; [|exact Hfree].
      intros ->. contradiction.
Qed.

(** ** The steps of [clean_symptom_input] against their statements *)

Lemma lower_char_by_table (c : ascii) : lower_char c = lowercase_of c.
Proof. destruct c as [[] [] [] [] [] [] [] []]; reflexivity. Qed.

Lemma Lowered_iff (s r : str) : Lowered s r <-> r = lower s.
Proof.
  unfold Lowered, lower. split.
  - intros H. induction H as [|c d s r Hd _ IH]; [reflexivity|].
    simpl. now rewrite Hd, IH, lower_char_by_table.
  - intros ->. induction s as [|c s IH]; simpl; constructor;
      [apply lower_char_by_table | exact IH].
Qed.

Lemma replace_first_at (old new s p q : str) :
  old <> [] -> first_at old s p q ->
  replace old new s = p ++ new ++ replace old new q.
Proof.
  intros Hne. revert s. induction p as [|c p IH]; intros s [Hs Hleft].
  - subst s. simpl. now apply replace_match.
  - subst s. simpl.
    assert (startswith old (c :: p ++ old ++ q) = false) as Hsw.
    { destruct (startswith old (c :: p ++ old ++ q)) eqn:E; [|reflexivity].
      apply startswith_app in E. destruct E as [q' E].
      specialize (Hleft [] q' E). simpl in Hleft. lia. }
    rewrite replace_no_match by assumption. f_equal.
    apply IH. split; [reflexivity|]. intros p' q' E.
    specialize (Hleft (c :: p') q'). simpl in Hleft.
    rewrite E in Hleft. specialize (Hleft eq_refl). lia.
Qed.

Lemma not_occurs_cons (old : str) (c : ascii) (s : str) :
  startswith old (c :: s) = false -> ~ occurs old s ->
  ~ occurs old (c :: s).
Proof.
  intros Hsw Hno H. apply occurs_cons_inv in H.
  destruct H as [[q H]|H]; [|contradiction].
  assert (startswith old (c :: s) = true) as E
      by (apply startswith_app; now exists q).
  congruence.
Qed.

Lemma Replaced_cons (old new : str) (c : ascii) (s r : str) :
  startswith old (c :: s) = false ->
  Replaced old new s r -> Replaced old new (c :: s) (c :: r).
Proof.
  intros Hsw H. destruct H as [s Hno | s p q r [Hs Hleft] Hq].
  - apply Replaced_none. now apply not_occurs_cons.
  - change (c :: p ++ new ++ r) with ((c :: p) ++ new ++ r).
    apply (Replaced_first old new (c :: s) (c :: p) q r); [|exact Hq].
    split; [now rewrite Hs|].
    intros [|c' p'] q' E.
    + assert (startswith old (c :: s) = true) as E'
          by (apply startswith_app; now exists q').
      congruence.
    + simpl in E. injection E as _ E. specialize (Hleft p' q' E).
      simpl. lia.
Qed.

Lemma Replaced_iff (old new s r : str) :
  old <> [] -> Replaced old new s r <-> r = replace old new s.
Proof.
  intros Hne. split.
  - intros H. induction H as [s Hno | s p q r Hfirst _ IH].
    + symmetry. now apply replace_without_occurrence.
    + subst r. symmetry. now apply replace_first_at.
  - intros ->.
    induction s as [| q IH | c s Hsw IH] using (replace_scan_ind old Hne).
    + rewrite replace_nil by exact Hne. apply Replaced_none.
      intros H. apply occurs_in_nil in H. contradiction.
    + rewrite replace_match by exact Hne.
      apply (Replaced_first old new (old ++ q) [] q); [|exact IH].
      split; [reflexivity|]. intros p' q' _. simpl. lia.
    + rewrite replace_no_match by assumption. now apply Replaced_cons.
Qed.

Lemma ReplacedInTurn_iff (new : str) (words : list str) (s r : str) :
  Forall (fun w => w <> []) words ->
  ReplacedInTurn new words s r
  <-> r = fold_left (fun t w => replace w new t) words s.
Proof.
  intros Hne. revert s. induction Hne as [|w words Hw _ IH]; intros s.
  - simpl. split.
    + intros H. inversion H. reflexivity.
    + intros ->. constructor.
  - simpl. split.
    + intros H. inversion H as [|? ? ? s1 ? Hr Hrest]; subst.
      apply (Replaced_iff w new s s1 Hw) in Hr. subst s1.
      now apply IH.
    + intros ->. apply ReplacedInTurn_cons with (s1 := replace w new s).
      * now apply Replaced_iff.
      * now apply IH.
Qed.

Lemma re_split_after_run (run rest : str) :
  run <> [] -> Forall (fun a => is_sep a = true) run -> clear_start rest ->
  re_split (run ++ rest) = [] :: re_split rest.
Proof.
  intros Hne Hrun Hrest. destruct rest as [|c rest].
  - rewrite app_nil_r. clear Hrest.
    induction Hrun as [|a run Ha Hrun IH]; [congruence|].
    rewrite re_split_cons, Ha. destruct run as [|b run]; [reflexivity|].
    inversion Hrun as [|? ? Hb _]; subst. rewrite Hb.
    apply IH. discriminate.
  - now apply re_split_after_separator.
Qed.

Lemma SplitOnRuns_unique (s : str) (pieces : list str) :
  SplitOnRuns s pieces -> pieces = re_split s.
Proof.
  intros H. induction H as [p Hp | p run rest pieces Hp Hne Hrun Hrest _ IH].
  - symmetry. now apply re_split_of_token.
  - rewrite (re_split_after_token p _ Hp).
    rewrite (re_split_after_run run rest Hne Hrun Hrest).
    now rewrite app_nil_r, IH.
Qed.

Lemma SplitOnRuns_longer_run (c c' : ascii) (s : str) (pieces : list str) :
  is_sep c = true -> is_sep c' = true ->
  SplitOnRuns (c' :: s) pieces -> SplitOnRuns (c :: c' :: s) pieces.
Proof.
  intros Hc Hc' H. remember (c' :: s) as s0 eqn:Es.
  destruct H as [p Hp | p run rest pieces Hp Hne Hrun Hrest Hs].
  - subst p. inversion Hp; subst. congruence.
  - destruct p as [|d p].
    + change (SplitOnRuns ([] ++ (c :: run) ++ rest) ([] :: pieces)).
      apply SplitOnRuns_run; try assumption;
        [discriminate | now constructor].
    + simpl in Es. injection Es as -> _. inversion Hp; subst. congruence.
Qed.

Lemma SplitOnRuns_longer_piece (c : ascii) (s : str) (pieces : list str) :
  is_sep c = false -> SplitOnRuns s pieces ->
  exists t ts,
    pieces = t :: ts /\ SplitOnRuns (c :: s) ((c :: t) :: ts).
Proof.
  intros Hc H.
  destruct H as [p Hp | p run rest pieces Hp Hne Hrun Hrest Hs].
  - exists p, []. split; [reflexivity|].
    apply SplitOnRuns_end. now constructor.
  - exists p, pieces. split; [reflexivity|].
    change (SplitOnRuns ((c :: p) ++ run ++ rest) ((c :: p) :: pieces)).
    apply SplitOnRuns_run; try assumption. now constructor.
Qed.

Lemma SplitOnRuns_re_split (s : str) : SplitOnRuns s (re_split s).
Proof.
  induction s as [|c s IH]; [apply SplitOnRuns_end; constructor|].
  rewrite re_split_cons. destruct (is_sep c) eqn:Hc.
  - destruct s as [|c' s].
    + apply (SplitOnRuns_run [] [c] [] [[]]);
        [constructor | discriminate | now constructor | exact I |].
      apply SplitOnRuns_end. constructor.
    + destruct (is_sep c') eqn:Hc'.
      * now apply SplitOnRuns_longer_run.
      * apply (SplitOnRuns_run [] [c] (c' :: s) (re_split (c' :: s)));
          [constructor | discriminate | now constructor | exact Hc'
           | exact IH].
  - destruct (SplitOnRuns_longer_piece c s _ Hc IH) as [t [ts [-> H]]].
    exact H.
Qed.

Lemma lstrip_past_spaces (l x : str) :
  Forall (fun c => is_space c = true) l -> lstrip (l ++ x) = lstrip x.
Proof.
  intros H. induction H as [|c l Hc _ IH]; [reflexivity|].
  simpl. now rewrite Hc.
Qed.

Lemma lstrip_no_space_first (x : str) : no_space_first x -> lstrip x = x.
Proof. destruct x as [|c x]; simpl; [reflexivity|]. now intros ->. Qed.

Lemma lstrip_split (s : str) :
  exists l,
    s = l ++ lstrip s
    /\ Forall (fun c => is_space c = true) l
    /\ no_space_first (lstrip s).
Proof.
  induction s as [|c s IH].
  - exists []. repeat split. constructor.
  - simpl. destruct (is_space c) eqn:Hc.
    + destruct IH as [l [E [Hl Hn]]]. exists (c :: l).
      split; [simpl; now rewrite <- E|]. split; [now constructor | exact Hn].
    + exists []. split; [reflexivity|]. split; [constructor | exact Hc].
Qed.

Lemma Trimmed_iff (s t : str) : Trimmed s t <-> t = strip s.
Proof.
  unfold strip. split.
  - intros [l [r [-> [Hl [Hr [Ht Htr]]]]]].
    rewrite (lstrip_past_spaces l _ Hl).
    destruct t as [|c t].
    + simpl. rewrite <- (app_nil_r r), (lstrip_past_spaces r [] Hr).
      reflexivity.
    + rewrite (lstrip_no_space_first ((c :: t) ++ r)) by exact Ht.
      rewrite rev_app_distr, lstrip_past_spaces.
      * rewrite (lstrip_no_space_first _ Htr). now rewrite rev_involutive.
      * apply Forall_forall. intros x Hx. apply in_rev in Hx.
        now apply (proj1 (Forall_forall _ _) Hr).
  - intros ->.
    destruct (lstrip_split s) as [l [Es [Hl Hn]]].
    destruct (lstrip_split (rev (lstrip s))) as [r' [Er [Hr' Hn']]].
    set (u := lstrip s) in *. set (v := lstrip (rev u)) in *.
    assert (u = rev v ++ rev r') as Eu
        by (rewrite <- rev_app_distr, <- Er; now rewrite rev_involutive).
    exists l, (rev r'). split; [now rewrite <- Eu|]. split; [exact Hl|].
    split; [|split].
    + apply Forall_forall. intros x Hx. apply in_rev in Hx.
      now apply (proj1 (Forall_forall _ _) Hr').
    + rewrite Eu in Hn. destruct (rev v) as [|c t]; [exact I | exact Hn].
    + now rewrite rev_involutive.
Qed.

Lemma Kept_iff (vocabulary pieces out : list str) :
  Kept vocabulary pieces out
  <-> out = filter (fun t => mem t vocabulary) (map strip pieces).
Proof.
  split.
  - intros H. induction H as [| piece t pieces out Ht Hin _ IH
                               | piece t pieces out Ht Hout _ IH]; simpl.
    + reflexivity.
    + apply Trimmed_iff in Ht. subst t. apply mem_In in Hin.
      now rewrite Hin, IH.
    + apply Trimmed_iff in Ht. subst t. apply mem_false in Hout.
      now rewrite Hout.
  - intros ->. induction pieces as [|piece pieces IH]; simpl; [constructor|].
    destruct (mem (strip piece) vocabulary) eqn:E.
    + apply Kept_member; [now apply Trimmed_iff | now apply mem_In | exact IH].
    + apply (Kept_other vocabulary piece (strip piece));
        [now apply Trimmed_iff | now apply mem_false | exact IH].
Qed.

Lemma Tokens_iff (rawText : str) (pieces : list str) :
  Tokens rawText pieces <-> pieces = re_split (cleaned_text rawText).
Proof.
  unfold Tokens, cleaned_text, remove_all. split.
  - intros [lowered [cleaned [Hl [Hr Hs]]]].
    apply Lowered_iff in Hl. subst lowered.
    apply (ReplacedInTurn_iff _ _ _ _ filler_words_nonempty) in Hr.
    subst cleaned. now apply SplitOnRuns_unique.
  - intros ->. exists (lower rawText). eexists.
    split; [now apply Lowered_iff|]. split.
    + apply (ReplacedInTurn_iff _ _ _ _ filler_words_nonempty). reflexivity.
    + apply SplitOnRuns_re_split.
Qed.

Lemma Extracts_iff (vocabulary : list str) (rawText : str) (out : list str) :
  Extracts vocabulary rawText out
  <-> out = clean_symptom_input vocabulary rawText.
Proof.
  rewrite clean_symptom_input_unfold. unfold Extracts. split.
  - intros [pieces [Ht Hk]]. apply Tokens_iff in Ht. subst pieces.
    now apply Kept_iff.
  - intros ->. exists (re_split (cleaned_text rawText)).
    split; [now apply Tokens_iff | now apply Kept_iff].
Qed.

(** C3. [clean_symptom_input] returns exactly the tokens the specification
    describes: the input is lowercased; every occurrence of each filler
    phrase, in the fixed sequence and as a plain substring, is replaced by
    one space; the text is cut at every run of commas and whitespace; each
    piece is trimmed; the pieces that equal a member of the vocabulary are
    kept, in order.  These steps determine the result, which is empty
    exactly when no trimmed piece is in the vocabulary.  The function has no
    state: it is a function of its two inputs. *)
Theorem clean_symptom_input_is_extract
    (vocabulary : list str) (user_input : str) :
  Extracts vocabulary user_input (clean_symptom_input vocabulary user_input)
  /\ (forall out,
        Extracts vocabulary user_input out ->
        out = clean_symptom_input vocabulary user_input)
  /\ clean_symptom_input vocabulary user_input = extract user_input vocabulary
  /\ (clean_symptom_input vocabulary user_input = []
      <-> forall pieces piece token,
            Tokens user_input pieces -> In piece pieces ->
            Trimmed piece token -> ~ In token vocabulary).
Proof.
  split; [now apply Extracts_iff|].
  split; [intros out H; now apply Extracts_iff|].
  split; [rewrite clean_symptom_input_unfold; reflexivity|].
  rewrite clean_symptom_input_unfold, filter_nil_iff. split.
  - intros H pieces piece token Ht Hin Htrim.
    apply Tokens_iff in Ht. apply Trimmed_iff in Htrim. subst pieces token.
    apply mem_false, H. now apply in_map.
  - intros H token Hin. apply in_map_iff in Hin.
    destruct Hin as [piece [<- Hin]]. apply mem_false.
    apply (H (re_split (cleaned_text user_input)) piece);
      [now apply Tokens_iff | exact Hin | now apply Trimmed_iff].
Qed.

Lemma clean_symptom_input_is_extract_witness :
  Extracts [text "fever"; text "cough"; text "rash"]
    (text "I have Fever, and  cough") [text "fever"; text "cough"]
  /\ forall out,
       Extracts [text "fever"; text "cough"; text "rash"]
         (text "I have Fever, and  cough") out ->
       out = [text "fever"; text "cough"].
Proof.
  destruct (clean_symptom_input_is_extract
              [text "fever"; text "cough"; text "rash"]
              (text "I have Fever, and  cough")) as [H1 [H2 _]].
  split; [exact H1 | exact H2].
Defined.

(** C8, as stated, fails: with the vocabulary [i], [have], the clean list
    ["i,have"] yields both tokens, and their join by a space is the filler
    phrase ["i have"], which yields none. *)
Lemma space_joined_output_is_not_stable : ~ idempotent_on_clean_lists.
Proof.
  intros H.
  specialize (H [text "i"; text "have"] [text "i"; text "have"]
                (text ",") (text " ")).
  assert (clean_symptom_input [text "i"; text "have"] (text "i have")
          = [text "i"; text "have"]) as E.
  { apply H.
    - repeat constructor; simpl; tauto.
    - split; [discriminate | repeat constructor; now left].
    - split; [discriminate | repeat constructor; now right]. }
  vm_compute in E. discriminate E.
Qed.

(** C8, amended.  For a vocabulary without the empty identifier and any
    input text, so for every clean list too: joining the extracted tokens
    with a separator of commas and whitespace that holds a comma, and
    extracting again, gives the same tokens. *)
Theorem extract_is_idempotent_on_comma_joined_output
    (vocabulary : list str) (sep user_input : str) :
  ~ In [] vocabulary ->
  Forall (fun c => is_sep c = true) sep -> In ","%char sep ->
  clean_symptom_input vocabulary
    (join sep (clean_symptom_input vocabulary user_input))
  = clean_symptom_input vocabulary user_input.
Proof.
  intros Hempty Hsep Hcomma.
  apply clean_joined_tokens; try assumption.
  apply clean_symptom_input_tokens.
Qed.

Lemma extract_is_idempotent_on_comma_joined_output_witness :
  ~ In [] [text "i"; text "have"]
  /\ Forall (fun c => is_sep c = true) (text ", ")
  /\ In ","%char (text ", ")
  /\ clean_symptom_input [text "i"; text "have"] (text "i,have")
     = [text "i"; text "have"]
  /\ clean_symptom_input [text "i"; text "have"]
       (join (text ", ")
          (clean_symptom_input [text "i"; text "have"] (text "i,have")))
     = clean_symptom_input [text "i"; text "have"] (text "i,have").
Proof.
  assert (~ In [] [text "i"; text "have"]) as H1
      by (simpl; intuition discriminate).
  assert (Forall (fun c => is_sep c = true) (text ", ")) as H2
      by (repeat constructor).
  assert (In ","%char (text ", ")) as H3 by (now left).
  split; [exact H1|]. split; [exact H2|]. split; [exact H3|].
  split; [reflexivity|].
  exact (extract_is_idempotent_on_comma_joined_output
           [text "i"; text "have"] (text ", ") (text "i,have") H1 H2 H3).
Defined.

(** ** Scenarios *)

Example clean_symptom_input_scenarios :
  clean_symptom_input (all_symptoms scenario_table)
    (text "I have Fever, and  cough") = [text "fever"; text "cough"]
  /\ clean_symptom_input (all_symptoms scenario_table) (text "I have chills")
     = []
  /\ clean_symptom_input [text "sand"; text "s"] (text "sand") = [text "s"].
Proof. repeat split; reflexivity. Qed.

Example string_library_scenarios :
  re_split (text ", a ,,b ") = [[]; text "a"; text "b"; []]
  /\ re_split [] = [[]]
  /\ re_split (text " ") = [[]; []]
  /\ replace (text "aa") (text "-") (text "aaaxaa") = text "-ax-"
  /\ replace [] (text "-") (text "ab") = text "-a-b-"
  /\ strip (text "  a b ") = text "a b"
  /\ lower (text "Fever AND Cough") = text "fever and cough".
Proof. repeat split; reflexivity. Qed.

Example narrow_scenarios :
  narrow [text "fever"; text "cough"] scenario_table
  = Ok (UniqueMatch (text "flu"))
  /\ narrow [text "fever"] scenario_table
     = Ok (Ambiguous [text "flu"; text "measles"] [text "cough"; text "rash"])
  /\ narrow [text "fever"; text "cough"; text "rash"] scenario_table
     = Ok NoMatch
  /\ narrow [] scenario_table
     = Ok (Ambiguous [text "flu"; text "measles"]
             [text "fever"; text "cough"; text "rash"])
  /\ narrow [text "fever"] second_prognosis_table = Raise TypeError.
Proof. repeat split; reflexivity. Qed.

Example predict_disease_scenario :
  ActionPredictDisease.run first_occurrences scenario_table scenario_info []
    {| latest_message_text := Some (text "I have fever and cough");
       get_slot := no_slots |}
  = Ok ([SlotSet Slot.symptoms [text "fever"; text "cough"];
         SlotSet Slot.possible_diseases [text "flu"];
         SlotSet Slot.predicted_disease (text "flu")],
        [most_likely_with_details (text "flu") (text "viral infection")
           (text "rest") (text "vaccine")]).
Proof. reflexivity. Qed.

Example get_disease_info_scenario :
  ActionGetDiseaseInfo.run scenario_info []
    {| latest_message_text := None;
       get_slot := set_slot Slot.predicted_disease (text "flu") no_slots |}
  = ([], [details_of (text "viral infection") (text "rest") (text "vaccine")]).
Proof. reflexivity. Qed.

(** ** Narrowing over the turns of a conversation *)

Lemma candidate_diseases_same_set (df : DataFrame) (us us' : list str) :
  (forall s, In s us <-> In s us') ->
  candidate_diseases us df = candidate_diseases us' df.
Proof.
  intros Hset.
  destruct (candidate_diseases_spec us df) as [Hh Hr].
  destruct (candidate_diseases_spec us' df) as [Hh' Hr'].
  apply DataFrame_eq; [congruence|]. rewrite Hr, Hr'.
  apply filter_ext. intros r. unfold has_all_known.
  now apply forallb_same_elements.
Qed.

Lemma candidate_diseases_app (df : DataFrame) (us vs : list str) :
  candidate_diseases (us ++ vs) df
  = candidate_diseases vs (candidate_diseases us df).
Proof. unfold candidate_diseases. apply fold_left_app. Qed.

Lemma rows_of_larger_set (df : DataFrame) (us us' : list str) :
  (forall s, In s us -> In s us') ->
  rows (candidate_diseases us' df)
  = filter (has_all_known df us') (rows (candidate_diseases us df)).
Proof.
  intros Hsub.
  destruct (candidate_diseases_spec us df) as [_ ->].
  destruct (candidate_diseases_spec us' df) as [_ ->].
  rewrite filter_twice. apply filter_ext. intros r.
  destruct (has_all_known df us' r) eqn:E'; [|now rewrite andb_false_r].
  rewrite andb_true_r. symmetry. unfold has_all_known in *.
  rewrite forallb_forall in *. intros s Hs. now apply E', Hsub.
Qed.

Lemma narrow_no_match_iff (df : DataFrame) (us : list str) :
  narrow us df = Ok NoMatch <-> rows (candidate_diseases us df) = [].
Proof.
  unfold narrow, possible_diseases.
  destruct (rows (candidate_diseases us df)) as [|r [|r' rs]]; simpl.
  - tauto.
  - split; discriminate.
  - destruct (remaining_symptoms (all_symptoms df) us
                (candidate_diseases us df)); split; discriminate.
Qed.

Lemma narrow_unique_iff (df : DataFrame) (us : list str) (d : str) :
  narrow us df = Ok (UniqueMatch d)
  <-> exists r, rows (candidate_diseases us df) = [r] /\ prognosis r = d.
Proof.
  unfold narrow, possible_diseases.
  destruct (rows (candidate_diseases us df)) as [|r [|r' rs]]; simpl.
  - split; [discriminate | intros [r [H _]]; discriminate].
  - split.
    + intros H. injection H as <-. now exists r.
    + intros [r0 [H <-]]. now injection H as <-.
  - split.
    + destruct (remaining_symptoms (all_symptoms df) us
                  (candidate_diseases us df)); discriminate.
    + intros [r0 [H _]]. discriminate.
Qed.

(** X1. Narrowing by the accumulated symptoms, in whatever order the set
    lists them, is narrowing the earlier candidates by the new symptoms. *)
Theorem narrowing_is_incremental
    (table : DataFrame) (stored new accumulated : list str) :
  (forall s, In s accumulated <-> In s stored \/ In s new) ->
  candidate_diseases accumulated table
  = candidate_diseases new (candidate_diseases stored table).
Proof.
  intros Hset. rewrite <- candidate_diseases_app.
  apply candidate_diseases_same_set. intros s.
  rewrite Hset. symmetry. apply in_app_iff.
Qed.

Lemma narrowing_is_incremental_witness :
  (forall s, In s [text "cough"; text "fever"]
             <-> In s [text "fever"] \/ In s [text "cough"; text "fever"])
  /\ candidate_diseases [text "cough"; text "fever"] scenario_table
     = candidate_diseases [text "cough"; text "fever"]
         (candidate_diseases [text "fever"] scenario_table).
Proof.
  assert (forall s, In s [text "cough"; text "fever"]
             <-> In s [text "fever"] \/ In s [text "cough"; text "fever"])
    as H by (intros s; simpl; intuition).
  split; [exact H|].
  exact (narrowing_is_incremental scenario_table _ _ _ H).
Defined.

(** X2. Once no row matches, no larger set of known symptoms matches
    either. *)
Theorem no_match_stays_no_match
    (table : DataFrame) (knownSymptoms extended : list str) :
  (forall s, In s knownSymptoms -> In s extended) ->
  narrow knownSymptoms table = Ok NoMatch ->
  narrow extended table = Ok NoMatch.
Proof.
  intros Hsub H. apply narrow_no_match_iff in H. apply narrow_no_match_iff.
  now rewrite (rows_of_larger_set table knownSymptoms extended Hsub), H.
Qed.

Lemma no_match_stays_no_match_witness :
  (forall s, In s [text "cough"; text "rash"] ->
             In s [text "rash"; text "fever"; text "cough"])
  /\ narrow [text "cough"; text "rash"] scenario_table = Ok NoMatch
  /\ narrow [text "rash"; text "fever"; text "cough"] scenario_table
     = Ok NoMatch.
Proof.
  assert (forall s, In s [text "cough"; text "rash"] ->
             In s [text "rash"; text "fever"; text "cough"]) as H
      by (intros s; simpl; intuition).
  assert (narrow [text "cough"; text "rash"] scenario_table = Ok NoMatch)
    as H0 by reflexivity.
  split; [exact H|]. split; [exact H0|].
  exact (no_match_stays_no_match scenario_table _ _ H H0).
Defined.

(** X3. After a unique match, a larger set of known symptoms gives the same
    unique match or no match at all, never an ambiguous outcome and never
    another disease. *)
Theorem unique_match_stays_or_vanishes
    (table : DataFrame) (knownSymptoms extended : list str) (d : str) :
  (forall s, In s knownSymptoms -> In s extended) ->
  narrow knownSymptoms table = Ok (UniqueMatch d) ->
  narrow extended table = Ok (UniqueMatch d)
  \/ narrow extended table = Ok NoMatch.
Proof.
  intros Hsub H. apply narrow_unique_iff in H. destruct H as [r [Hr Hd]].
  pose proof (rows_of_larger_set table knownSymptoms extended Hsub) as E.
  rewrite Hr in E. simpl in E.
  destruct (has_all_known table extended r).
  - left. apply narrow_unique_iff. now exists r.
  - right. now apply narrow_no_match_iff.
Qed.

Lemma unique_match_stays_or_vanishes_witness :
  (forall s, In s [text "cough"] -> In s [text "cough"; text "rash"])
  /\ narrow [text "cough"] scenario_table = Ok (UniqueMatch (text "flu"))
  /\ (narrow [text "cough"; text "rash"] scenario_table
      = Ok (UniqueMatch (text "flu"))
      \/ narrow [text "cough"; text "rash"] scenario_table = Ok NoMatch).
Proof.
  assert (forall s, In s [text "cough"] -> In s [text "cough"; text "rash"])
    as H by (intros s; simpl; intuition).
  assert (narrow [text "cough"] scenario_table
          = Ok (UniqueMatch (text "flu"))) as H0 by reflexivity.
  split; [exact H|]. split; [exact H0|].
  exact (unique_match_stays_or_vanishes scenario_table _ _ _ H H0).
Defined.

(** ** Narrowing: the label ["prognosis"] and the case of the header *)


Lemma columns_of_candidates (us : list str) (df : DataFrame) :
  columns (candidate_diseases us df) = columns df.
Proof.
  unfold columns. now rewrite (proj1 (candidate_diseases_spec us df)).
Qed.

Lemma known_prognosis_leaves_no_row (df : DataFrame) (us : list str) :
  In (text "prognosis") us -> rows (candidate_diseases us df) = [].
Proof.
  intros Hin. rewrite (proj2 (candidate_diseases_spec us df)).
  apply filter_nil_iff. intros r _.
  destruct (has_all_known df us r) eqn:E; [|reflexivity].
  unfold has_all_known in E. rewrite forallb_forall in E.
  specialize (E _ Hin). rewrite prognosis_is_a_column in E.
  unfold value_at in E. rewrite str_eqb_refl in E. discriminate E.
Qed.

(** X4. Narrowing raises, and only a [TypeError], exactly when two or more
    rows survive and the vocabulary holds ["prognosis"], that is when the
    header has a second label that lowercases to it: the loop over the
    vocabulary then sums the text column. *)
Theorem narrow_raises_exactly_on_a_second_prognosis_label
    (table : DataFrame) (knownSymptoms : list str) (e : Exception) :
  narrow knownSymptoms table = Raise e
  <-> In (text "prognosis") (all_symptoms table)
      /\ 2 <= length (rows (candidate_diseases knownSymptoms table)).
Proof.
  unfold narrow, remaining_symptoms.
  rewrite <- possible_diseases_length.
  destruct (possible_diseases (candidate_diseases knownSymptoms table))
    as [|d [|d' ds]] eqn:Hp.
  - split; [discriminate | simpl; lia].
  - split; [discriminate | simpl; lia].
  - assert (rows (candidate_diseases knownSymptoms table) <> []) as Hrows.
    { intros H. unfold possible_diseases in Hp. rewrite H in Hp.
      discriminate Hp. }
    destruct (remaining_symptoms_loop knownSymptoms
                (candidate_diseases knownSymptoms table)
                (all_symptoms table) []) as [remaining|e'] eqn:Hl.
    + split; [discriminate|]. intros [Hin _]. exfalso.
      assert (remaining_symptoms_loop knownSymptoms
                (candidate_diseases knownSymptoms table)
                (all_symptoms table) [] = Raise TypeError) as Hr.
      { apply remaining_symptoms_loop_raises_iff.
        exists (text "prognosis"). split; [exact Hin|]. split.
        - rewrite prognosis_is_a_column, andb_true_r.
          destruct (mem (text "prognosis") knownSymptoms) eqn:Hm;
            [|reflexivity].
          apply mem_In in Hm. exfalso. apply Hrows.
          now apply known_prognosis_leaves_no_row.
        - now apply gt_sum_raises_iff. }
      congruence.
    + destruct e, e'. split; [|reflexivity]. intros _.
      apply remaining_symptoms_loop_raises_iff in Hl.
      destruct Hl as [sym [Hin [_ Hg]]].
      apply gt_sum_raises_iff in Hg. destruct Hg as [-> _].
      split; [exact Hin | simpl; lia].
Qed.

Lemma narrow_raises_exactly_on_a_second_prognosis_label_witness :
  (In (text "prognosis") (all_symptoms second_prognosis_table)
   /\ 2 <= length (rows (candidate_diseases [text "fever"]
                           second_prognosis_table)))
  /\ narrow [text "fever"] second_prognosis_table = Raise TypeError.
Proof.
  assert (In (text "prognosis") (all_symptoms second_prognosis_table)
          /\ 2 <= length (rows (candidate_diseases [text "fever"]
                                  second_prognosis_table))) as H
      by (split; [vm_compute; tauto | vm_compute; lia]).
  split; [exact H|].
  exact (proj2 (narrow_raises_exactly_on_a_second_prognosis_label
                  second_prognosis_table [text "fever"] TypeError) H).
Defined.

(** X5. A known symptom equal to the label ["prognosis"] removes every row:
    the disease names of that column never equal 1. *)
Theorem known_prognosis_is_no_match
    (table : DataFrame) (knownSymptoms : list str) :
  In (text "prognosis") knownSymptoms ->
  narrow knownSymptoms table = Ok NoMatch.
Proof.
  intros Hin. apply narrow_no_match_iff.
  now apply known_prognosis_leaves_no_row.
Qed.

Lemma known_prognosis_is_no_match_witness :
  In (text "prognosis") [text "prognosis"]
  /\ narrow [text "prognosis"] second_prognosis_table = Ok NoMatch.
Proof.
  assert (In (text "prognosis") [text "prognosis"]) as H by (now left).
  split; [exact H|].
  exact (known_prognosis_is_no_match second_prognosis_table _ H).
Defined.

Lemma lower_fixed_iff (s : str) : lower s = s <-> Forall lower_fixed s.
Proof.
  split; [|apply lower_of_fixed]. unfold lower.
  induction s as [|c s IH]; simpl; intros H; constructor;
    injection H as Hc Hs; [exact Hc | now apply IH].
Qed.

(** X6. Symptom columns are looked up by their label as written, while the
    vocabulary and so every extracted symptom is in lower case: when every
    symptom label of the header holds a capital, lower-case known symptoms
    narrow nothing and every row stays a candidate. *)
Theorem capitalised_header_is_never_narrowed
    (table : DataFrame) (knownSymptoms : list str) :
  (forall col, In col (symptom_columns table) -> lower col <> col) ->
  (forall sym, In sym knownSymptoms -> lower sym = sym) ->
  ~ In (text "prognosis") knownSymptoms ->
  candidate_diseases knownSymptoms table = table.
Proof.
  intros Hcap Hlow Hpro.
  destruct (candidate_diseases_spec knownSymptoms table) as [Hh Hr].
  apply DataFrame_eq; [exact Hh|]. rewrite Hr.
  rewrite <- (filter_all (rows table)) at 2.
  apply filter_ext. intros r. unfold has_all_known.
  apply forallb_forall. intros sym Hin.
  destruct (mem sym (columns table)) eqn:Hm; [|reflexivity].
  apply mem_In in Hm. unfold columns in Hm. apply in_app_or in Hm.
  destruct Hm as [Hm|[<-|[]]].
  - exfalso. now apply (Hcap sym Hm), Hlow.
  - contradiction.
Qed.

Lemma capitalised_header_is_never_narrowed_witness :
  (forall col, In col (symptom_columns capitalised_table) -> lower col <> col)
  /\ (forall sym, In sym [text "cough"] -> lower sym = sym)
  /\ ~ In (text "prognosis") [text "cough"]
  /\ clean_symptom_input (all_symptoms capitalised_table)
       (text "I have COUGH") = [text "cough"]
  /\ candidate_diseases [text "cough"] capitalised_table = capitalised_table.
Proof.
  assert (forall col, In col (symptom_columns capitalised_table) ->
                      lower col <> col) as H1
      by (intros col [<-|[<-|[]]]; vm_compute; discriminate).
  assert (forall sym, In sym [text "cough"] -> lower sym = sym) as H2
      by (intros sym [<-|[]]; reflexivity).
  assert (~ In (text "prognosis") [text "cough"]) as H3
      by (vm_compute; intuition discriminate).
  split; [exact H1|]. split; [exact H2|]. split; [exact H3|].
  split; [reflexivity|].
  exact (capitalised_header_is_never_narrowed capitalised_table _ H1 H2 H3).
Defined.

(** ** The follow-up symptoms, read against the table *)

Lemma positive_total_has_positive_term (l : list Z) :
  Forall (fun z => 0 <= z)%Z l -> fold_left Z.add l 0%Z <> 0%Z ->
  exists z, In z l /\ (0 < z)%Z.
Proof.
  rewrite (fold_symmetric Z.add Z.add_assoc 0%Z)
    by (intros y; apply Z.add_comm).
  intros H. induction H as [|z l Hz _ IH]; simpl; intros Hsum.
  - congruence.
  - destruct (Z.eq_dec z 0) as [->|Hnz].
    + destruct IH as [z' [Hin Hz']]; [exact Hsum|].
      exists z'. split; [now right | exact Hz'].
    + exists z. split; [now left | lia].
Qed.

Lemma prognosis_sum_is_not_positive (cd : DataFrame) :
  column_sum_positive cd (text "prognosis") = false.
Proof.
  unfold column_sum_positive, getitem. rewrite str_eqb_refl.
  now destruct (map prognosis (rows cd)).
Qed.

Lemma all_symptoms_lower (df : DataFrame) (sym : str) :
  In sym (all_symptoms df) -> lower sym = sym.
Proof.
  unfold all_symptoms. intros H. apply in_map_iff in H.
  destruct H as [col [<- _]]. apply lower_fixed_iff, lower_is_fixed.
Qed.

(** X7. For a table of int64 symptom columns with no cell below zero:
    every follow-up symptom of an ambiguous outcome is a symptom label of
    the header written in lower case, and some candidate row holds a
    positive number under it.  A symptom column whose label holds a capital
    is therefore never asked about. *)
Theorem discriminators_are_lower_case_columns_present_in_a_candidate
    (table : DataFrame) (knownSymptoms candidates discriminators : list str)
    (sym : str) :
  int64_table table -> non_negative_table table ->
  narrow knownSymptoms table = Ok (Ambiguous candidates discriminators) ->
  In sym discriminators ->
  In sym (symptom_columns table)
  /\ lower sym = sym
  /\ exists r z,
       In r (rows (candidate_diseases knownSymptoms table))
       /\ cell table r sym = Some z /\ (0 < z)%Z.
Proof.
  intros Htable Hnonneg H Hin. apply narrow_ambiguous_inv in H.
  destruct H as [_ [remaining [Hrem ->]]].
  apply remaining_symptoms_loop_spec in Hrem. simpl in Hrem. subst remaining.
  apply In_firstn, filter_In in Hin. destruct Hin as [Hvoc Hopen].
  set (cd := candidate_diseases knownSymptoms table) in *.
  assert (sym <> text "prognosis") as Hne.
  { intros ->. unfold open_symptom in Hopen.
    rewrite prognosis_sum_is_not_positive, andb_false_r in Hopen.
    discriminate Hopen. }
  assert (int64_table cd) as Hcd by now apply int64_table_candidates.
  rewrite (open_symptom_is_discriminating _ _ _ Hcd Hne) in Hopen.
  unfold is_discriminating in Hopen.
  destruct (in_dec str_dec sym knownSymptoms); [discriminate|].
  destruct (in_dec str_dec sym (columns cd)) as [Hcol|]; [|discriminate].
  destruct (Z_lt_dec 0 (wrap64 (column_total cd sym))) as [Hpos|];
    [|discriminate].
  assert (symptom_columns cd = symptom_columns table) as Hh
      by apply (proj1 (candidate_diseases_spec knownSymptoms table)).
  assert (In sym (symptom_columns table)) as Hs.
  { unfold columns in Hcol. rewrite Hh in Hcol. apply in_app_or in Hcol.
    destruct Hcol as [Hcol|[Hcol|[]]]; [exact Hcol | congruence]. }
  split; [exact Hs|]. split; [now apply (all_symptoms_lower table)|].
  assert (forall r, In r (rows cd) -> In r (rows table)) as Hsub.
  { intros r Hr. unfold cd in Hr.
    rewrite (proj2 (candidate_diseases_spec knownSymptoms table)) in Hr.
    now apply filter_In in Hr. }
  assert (column_total cd sym <> 0%Z) as Hsum
      by (intros E; rewrite E in Hpos; vm_compute in Hpos; discriminate).
  unfold column_total in Hsum.
  apply positive_total_has_positive_term in Hsum.
  - destruct Hsum as [z [Hz Hzpos]]. apply in_map_iff in Hz.
    destruct Hz as [r [Hc Hr]]. exists r, z. split; [exact Hr|].
    split; [|exact Hzpos].
    unfold cell in *. rewrite <- Hh.
    destruct (match index_of sym (symptom_columns cd) with
              | Some i => nth_error (values r) i
              | None => None
              end) as [z'|]; [congruence | lia].
  - apply Forall_forall. intros z Hz. apply in_map_iff in Hz.
    destruct Hz as [r [<- Hr]].
    destruct (cell cd r sym) as [z'|] eqn:Ez; [|lia].
    assert (In sym (symptom_columns cd)) as Hs' by now rewrite Hh.
    destruct (cell_present cd r sym Hs' (proj1 (Hcd r Hr))) as [z0 [E0 Hv]].
    rewrite Ez in E0. injection E0 as ->.
    exact (proj1 (Forall_forall _ _) (Hnonneg r (Hsub r Hr)) z0 Hv).
Qed.

Lemma discriminators_are_lower_case_columns_present_in_a_candidate_witness :
  int64_table itch_table
  /\ non_negative_table itch_table
  /\ narrow [text "fever"] itch_table
     = Ok (Ambiguous [text "flu"; text "measles"] [text "cough"; text "rash"])
  /\ In (text "rash") [text "cough"; text "rash"]
  /\ In (text "rash") (symptom_columns itch_table)
  /\ lower (text "rash") = text "rash"
  /\ exists r z,
       In r (rows (candidate_diseases [text "fever"] itch_table))
       /\ cell itch_table r (text "rash") = Some z /\ (0 < z)%Z.
Proof.
  assert (int64_table itch_table) as H1.
  { intros r [<-|[<-|[]]]; (split; [reflexivity|]);
      repeat constructor; unfold in_int64; lia. }
  assert (non_negative_table itch_table) as H2
      by (intros r [<-|[<-|[]]]; repeat constructor; lia).
  assert (narrow [text "fever"] itch_table
          = Ok (Ambiguous [text "flu"; text "measles"]
                  [text "cough"; text "rash"])) as H3 by reflexivity.
  assert (In (text "rash") [text "cough"; text "rash"]) as H4
      by (right; now left).
  split; [exact H1|]. split; [exact H2|]. split; [exact H3|].
  split; [exact H4|].
  exact (discriminators_are_lower_case_columns_present_in_a_candidate
           _ _ _ _ _ H1 H2 H3 H4).
Defined.

(** ** What [clean_symptom_input] can return *)

(** X8. Every extracted token is a member of the vocabulary, in lower case,
    without comma or whitespace, and holds none of the filler words as a
    substring.  So a symptom of the vocabulary whose name holds ["and"],
    ["with"], ["got"], ["also"], ["having"] or ["i'm"], or a space or a
    capital, is never recognized in any message. *)
Theorem extracted_tokens_are_clean
    (vocabulary : list str) (user_input t : str) :
  In t (clean_symptom_input vocabulary user_input) ->
  In t vocabulary
  /\ (forall c, In c t -> is_sep c = false)
  /\ lower t = t
  /\ (forall w, In w filler_words -> ~ occurs w t).
Proof.
  intros Hin.
  pose proof (clean_symptom_input_tokens vocabulary user_input) as H.
  apply (proj1 (Forall_forall _ _) H) in Hin.
  destruct Hin as [Hv [Hfree [Hlow Hfill]]].
  split; [exact Hv|]. split; [|split].
  - now apply Forall_forall.
  - now apply lower_fixed_iff.
  - exact Hfill.
Qed.

Lemma extracted_tokens_are_clean_witness :
  In (text "cough")
    (clean_symptom_input [text "cold_hands_and_feets"; text "cough"]
       (text "Cough and cold_hands_and_feets"))
  /\ clean_symptom_input [text "cold_hands_and_feets"; text "cough"]
       (text "Cough and cold_hands_and_feets") = [text "cough"]
  /\ lower (text "cough") = text "cough".
Proof.
  assert (In (text "cough")
            (clean_symptom_input [text "cold_hands_and_feets"; text "cough"]
               (text "Cough and cold_hands_and_feets"))) as H
      by (vm_compute; now left).
  split; [exact H|]. split; [reflexivity|].
  exact (proj1 (proj2 (proj2 (extracted_tokens_are_clean _ _ _ H)))).
Defined.

(** X9. A list of tokens of that kind, written with a separator of commas
    and whitespace that holds a comma, is extracted as it stands: in order,
    repetitions included. *)
Theorem clean_list_is_extracted_verbatim
    (vocabulary : list str) (sep : str) (members : list str) :
  ~ In [] vocabulary ->
  Forall (fun c => is_sep c = true) sep -> In ","%char sep ->
  Forall (clean_token vocabulary) members ->
  clean_symptom_input vocabulary (join sep members) = members.
Proof.
  intros Hempty Hsep Hcomma Hmembers.
  destruct members as [|m ms].
  - now apply clean_joined_tokens.
  - apply clean_joined_tokens; assumption.
Qed.

Lemma clean_list_is_extracted_verbatim_witness :
  let vocabulary := [text "fever"; text "cough"] in
  let members := [text "cough"; text "fever"; text "cough"] in
  ~ In [] vocabulary
  /\ Forall (fun c => is_sep c = true) (text " , ")
  /\ In ","%char (text " , ")
  /\ Forall (clean_token vocabulary) members
  /\ clean_symptom_input vocabulary (text "cough , fever , cough") = members.
Proof.
  intros vocabulary members.
  assert (~ In [] vocabulary) as H1 by (simpl; intuition discriminate).
  assert (Forall (fun c => is_sep c = true) (text " , ")) as H2
      by (repeat constructor).
  assert (In ","%char (text " , ")) as H3 by (right; now left).
  assert (Forall (clean_token vocabulary) members) as H4
      by (exact (clean_symptom_input_tokens vocabulary
                   (text "cough fever cough"))).
  split; [exact H1|]. split; [exact H2|]. split; [exact H3|].
  split; [exact H4|].
  exact (clean_list_is_extracted_verbatim vocabulary (text " , ") members
           H1 H2 H3 H4).
Defined.

(** ** The predict action, outcome by outcome *)

(** What [run] returns once a symptom is recognized, read off the outcome of
    narrowing by the accumulated symptoms. *)
Lemma run_by_narrow (list_of_set : list str -> list str)
    (disease_symptoms : DataFrame) (disease_info : InfoFrame)
    (dispatcher : list Message) (tracker : Tracker) :
  clean_symptom_input (all_symptoms disease_symptoms) (user_message tracker)
  <> [] ->
  let known := updated_symptoms list_of_set disease_symptoms tracker in
  ActionPredictDisease.run list_of_set disease_symptoms disease_info
    dispatcher tracker
  = match narrow known disease_symptoms with
    | Ok NoMatch =>
        Ok ([SlotSet Slot.symptoms known; SlotSet Slot.possible_diseases []],
            dispatcher ++ [could_not_match])
    | Ok (UniqueMatch d) =>
        Ok ([SlotSet Slot.symptoms known;
             SlotSet Slot.possible_diseases [d];
             SlotSet Slot.predicted_disease d],
            dispatcher
            ++ [match lookup d disease_info with
                | Some (description, treatment, prevention) =>
                    most_likely_with_details d description treatment
                      prevention
                | None => most_likely d
                end])
    | Ok (Ambiguous candidates discriminators) =>
        Ok ([SlotSet Slot.symptoms known;
             SlotSet Slot.possible_diseases candidates;
             SlotSet Slot.remaining_symptoms_to_ask discriminators],
            dispatcher
            ++ [match discriminators with
                | _ :: _ => do_you_also_have (join (text ", ") discriminators)
                | [] => possible_diseases_are (join (text ", ") candidates)
                end])
    | Raise e => Raise e
    end.
Proof.
  intros Hsome known. unfold ActionPredictDisease.run.
  unfold known, updated_symptoms, narrow.
  destruct (clean_symptom_input (all_symptoms disease_symptoms)
              (user_message tracker)) as [|s new]; [congruence|].
  destruct (possible_diseases
              (candidate_diseases
                 (list_of_set (stored_symptoms tracker ++ s :: new))
                 disease_symptoms)) as [|d [|d' ds]];
    [reflexivity | |].
  - now destruct (lookup d disease_info) as [[[x y] z]|].
  - destruct (remaining_symptoms (all_symptoms disease_symptoms)
                (list_of_set (stored_symptoms tracker ++ s :: new))
                (candidate_diseases
                   (list_of_set (stored_symptoms tracker ++ s :: new))
                   disease_symptoms)) as [remaining|e]; [|reflexivity].
    now destruct remaining.
Qed.

(** X10. On a unique match the action sets [symptoms] to the accumulated
    symptoms, [possible_diseases] to the one disease and
    [predicted_disease] to it, and leaves [remaining_symptoms_to_ask] as it
    was.  The disease is the name of a row of the table, and the message
    carries the details exactly when the info table has a row for it. *)
Theorem unique_match_sets_the_prediction
    (list_of_set : list str -> list str) (disease_symptoms : DataFrame)
    (disease_info : InfoFrame) (dispatcher : list Message)
    (tracker : Tracker) (d : str) :
  clean_symptom_input (all_symptoms disease_symptoms) (user_message tracker)
  <> [] ->
  narrow (updated_symptoms list_of_set disease_symptoms tracker)
    disease_symptoms = Ok (UniqueMatch d) ->
  let known := updated_symptoms list_of_set disease_symptoms tracker in
  exists events message,
    ActionPredictDisease.run list_of_set disease_symptoms disease_info
      dispatcher tracker
    = Ok (events, dispatcher ++ [message])
    /\ events = [SlotSet Slot.symptoms known;
                 SlotSet Slot.possible_diseases [d];
                 SlotSet Slot.predicted_disease d]
    /\ apply_events events (get_slot tracker) Slot.predicted_disease = Some d
    /\ apply_events events (get_slot tracker) Slot.remaining_symptoms_to_ask
       = get_slot tracker Slot.remaining_symptoms_to_ask
    /\ (exists r, In r (rows disease_symptoms) /\ prognosis r = d)
    /\ (message = most_likely d
        <-> forall r, In r disease_info -> disease r <> d).
Proof.
  intros Hsome Hnarrow known.
  pose proof (run_by_narrow list_of_set disease_symptoms disease_info
                dispatcher tracker Hsome) as Hrun.
  simpl in Hrun. rewrite Hnarrow in Hrun.
  eexists. eexists. split; [exact Hrun|].
  split; [reflexivity|]. split; [reflexivity|]. split; [reflexivity|].
  split.
  - apply narrow_unique_iff in Hnarrow. destruct Hnarrow as [r [Hr Hd]].
    exists r. split; [|exact Hd].
    assert (In r (rows (candidate_diseases
                          (updated_symptoms list_of_set disease_symptoms
                             tracker) disease_symptoms))) as Hin
        by (rewrite Hr; now left).
    rewrite (proj2 (candidate_diseases_spec _ disease_symptoms)) in Hin.
    now apply filter_In in Hin.
  - rewrite <- lookup_none.
    destruct (lookup d disease_info) as [[[x y] z]|].
    + split; discriminate.
    + split; reflexivity.
Qed.

Lemma unique_match_sets_the_prediction_witness :
  let tracker :=
    {| latest_message_text := Some (text "also cough");
       get_slot := set_slot Slot.symptoms [text "fever"] no_slots |} in
  clean_symptom_input (all_symptoms scenario_table) (user_message tracker)
  <> []
  /\ narrow (updated_symptoms first_occurrences scenario_table tracker)
       scenario_table = Ok (UniqueMatch (text "flu"))
  /\ exists events message,
       ActionPredictDisease.run first_occurrences scenario_table []
         [] tracker
       = Ok (events, [message])
       /\ message = most_likely (text "flu").
Proof.
  intros tracker.
  assert (clean_symptom_input (all_symptoms scenario_table)
            (user_message tracker) <> []) as H1
      by (vm_compute; discriminate).
  assert (narrow (updated_symptoms first_occurrences scenario_table tracker)
            scenario_table = Ok (UniqueMatch (text "flu"))) as H2
      by (vm_compute; reflexivity).
  split; [exact H1|]. split; [exact H2|].
  destruct (unique_match_sets_the_prediction first_occurrences scenario_table
              [] [] tracker (text "flu") H1 H2)
    as [events [message [Hrun [_ [_ [_ [_ Hmsg]]]]]]].
  exists events, message. split; [exact Hrun|].
  apply Hmsg. intros r [].
Defined.

(** X11. On an ambiguous outcome the action sets [symptoms],
    [possible_diseases] (two names or more) and
    [remaining_symptoms_to_ask], and leaves [predicted_disease] as it was,
    so an earlier prediction stays in the slot.  It asks about the follow-up
    symptoms when there are some and lists the candidate diseases when
    there are none. *)
Theorem ambiguous_outcome_asks_or_lists
    (list_of_set : list str -> list str) (disease_symptoms : DataFrame)
    (disease_info : InfoFrame) (dispatcher : list Message)
    (tracker : Tracker) (candidates discriminators : list str) :
  clean_symptom_input (all_symptoms disease_symptoms) (user_message tracker)
  <> [] ->
  narrow (updated_symptoms list_of_set disease_symptoms tracker)
    disease_symptoms = Ok (Ambiguous candidates discriminators) ->
  let known := updated_symptoms list_of_set disease_symptoms tracker in
  exists events message,
    ActionPredictDisease.run list_of_set disease_symptoms disease_info
      dispatcher tracker
    = Ok (events, dispatcher ++ [message])
    /\ events = [SlotSet Slot.symptoms known;
                 SlotSet Slot.possible_diseases candidates;
                 SlotSet Slot.remaining_symptoms_to_ask discriminators]
    /\ apply_events events (get_slot tracker) Slot.predicted_disease
       = get_slot tracker Slot.predicted_disease
    /\ 2 <= length candidates
    /\ (discriminators <> [] ->
        message = do_you_also_have (join (text ", ") discriminators))
    /\ (discriminators = [] ->
        message = possible_diseases_are (join (text ", ") candidates)).
Proof.
  intros Hsome Hnarrow known.
  pose proof (run_by_narrow list_of_set disease_symptoms disease_info
                dispatcher tracker Hsome) as Hrun.
  simpl in Hrun. rewrite Hnarrow in Hrun.
  eexists. eexists. split; [exact Hrun|].
  split; [reflexivity|]. split; [reflexivity|]. split; [|split].
  - unfold narrow in Hnarrow.
    destruct (possible_diseases
                (candidate_diseases
                   (updated_symptoms list_of_set disease_symptoms tracker)
                   disease_symptoms)) as [|x [|y l]]; try discriminate.
    destruct (remaining_symptoms (all_symptoms disease_symptoms)
                (updated_symptoms list_of_set disease_symptoms tracker)
                (candidate_diseases
                   (updated_symptoms list_of_set disease_symptoms tracker)
                   disease_symptoms)); try discriminate.
    injection Hnarrow as <- _. simpl. lia.
  - intros Hne. destruct discriminators; [congruence | reflexivity].
  - intros ->. reflexivity.
Qed.

Lemma ambiguous_outcome_asks_or_lists_witness :
  let tracker :=
    {| latest_message_text := Some (text "I have fever");
       get_slot := set_slot Slot.predicted_disease (text "flu") no_slots |} in
  clean_symptom_input (all_symptoms fever_only_table) (user_message tracker)
  <> []
  /\ narrow (updated_symptoms first_occurrences fever_only_table tracker)
       fever_only_table = Ok (Ambiguous [text "flu"; text "cold"] [])
  /\ exists events,
       ActionPredictDisease.run first_occurrences fever_only_table [] []
         tracker
       = Ok (events, [possible_diseases_are (text "flu, cold")])
       /\ apply_events events (get_slot tracker) Slot.predicted_disease
          = Some (text "flu").
Proof.
  intros tracker.
  assert (clean_symptom_input (all_symptoms fever_only_table)
            (user_message tracker) <> []) as H1
      by (vm_compute; discriminate).
  assert (narrow (updated_symptoms first_occurrences fever_only_table tracker)
            fever_only_table = Ok (Ambiguous [text "flu"; text "cold"] []))
    as H2 by (vm_compute; reflexivity).
  split; [exact H1|]. split; [exact H2|].
  destruct (ambiguous_outcome_asks_or_lists first_occurrences fever_only_table
              [] [] tracker _ _ H1 H2)
    as [events [message [Hrun [_ [Hpred [_ [_ Hmsg]]]]]]].
  exists events. rewrite Hrun, (Hmsg eq_refl). split; [reflexivity|].
  exact Hpred.
Defined.

(** ** The predict action over a conversation *)

Lemma run_without_symptom (list_of_set : list str -> list str)
    (disease_symptoms : DataFrame) (disease_info : InfoFrame)
    (dispatcher : list Message) (tracker : Tracker) :
  clean_symptom_input (all_symptoms disease_symptoms) (user_message tracker)
  = [] ->
  ActionPredictDisease.run list_of_set disease_symptoms disease_info
    dispatcher tracker
  = Ok ([], dispatcher ++ [could_you_rephrase]).
Proof. intros H. unfold ActionPredictDisease.run. now rewrite H. Qed.

Lemma stored_in_updated (list_of_set : list str -> list str)
    (disease_symptoms : DataFrame) (tracker : Tracker) (s : str) :
  set_listing list_of_set ->
  In s (stored_symptoms tracker) ->
  In s (updated_symptoms list_of_set disease_symptoms tracker).
Proof.
  intros Hset Hin. unfold updated_symptoms.
  apply (proj2 (Hset _)). apply in_or_app. now left.
Qed.

(** X12. A run that returns utters exactly one message after those already
    uttered, and the stored symptoms only grow: every symptom stored before
    the turn is stored after the returned events are applied. *)
Theorem known_symptoms_never_shrink
    (list_of_set : list str -> list str) (disease_symptoms : DataFrame)
    (disease_info : InfoFrame) (dispatcher messages : list Message)
    (tracker next : Tracker) (events : list Event) :
  set_listing list_of_set ->
  ActionPredictDisease.run list_of_set disease_symptoms disease_info
    dispatcher tracker = Ok (events, messages) ->
  get_slot next Slot.symptoms
  = apply_events events (get_slot tracker) Slot.symptoms ->
  (exists message, messages = dispatcher ++ [message])
  /\ forall s, In s (stored_symptoms tracker) -> In s (stored_symptoms next).
Proof.
  intros Hset Hrun Hnext.
  destruct (clean_symptom_input (all_symptoms disease_symptoms)
              (user_message tracker)) as [|t new] eqn:Hnew.
  - rewrite (run_without_symptom _ _ _ _ _ Hnew) in Hrun.
    injection Hrun as <- <-. split; [eauto|].
    intros s Hs. unfold stored_symptoms in *. now rewrite Hnext.
  - assert (clean_symptom_input (all_symptoms disease_symptoms)
              (user_message tracker) <> []) as Hsome by congruence.
    rewrite (run_by_narrow _ _ _ _ _ Hsome) in Hrun.
    assert (forall s, In s (stored_symptoms tracker) ->
                      In s (updated_symptoms list_of_set disease_symptoms
                              tracker)) as Hgrow
        by (intros s; now apply stored_in_updated).
    destruct (narrow (updated_symptoms list_of_set disease_symptoms tracker)
                disease_symptoms) as [[|d|cands discr]|e];
      try discriminate; injection Hrun as <- <-;
      (split; [eauto|]); intros s Hs;
      unfold stored_symptoms at 1; rewrite Hnext; simpl;
      now apply Hgrow.
Qed.

Lemma known_symptoms_never_shrink_witness :
  let tracker :=
    {| latest_message_text := Some (text "cough");
       get_slot := set_slot Slot.symptoms [text "fever"] no_slots |} in
  let events :=
    [SlotSet Slot.symptoms [text "fever"; text "cough"];
     SlotSet Slot.possible_diseases [text "flu"];
     SlotSet Slot.predicted_disease (text "flu")] in
  let next :=
    {| latest_message_text := None;
       get_slot := apply_events events (get_slot tracker) |} in
  set_listing first_occurrences
  /\ ActionPredictDisease.run first_occurrences scenario_table [] []
       tracker = Ok (events, [most_likely (text "flu")])
  /\ forall s, In s (stored_symptoms tracker) -> In s (stored_symptoms next).
Proof.
  intros tracker events next.
  assert (ActionPredictDisease.run first_occurrences scenario_table [] []
            tracker = Ok (events, [most_likely (text "flu")])) as H
      by reflexivity.
  split; [exact first_occurrences_listing|]. split; [exact H|].
  exact (proj2 (known_symptoms_never_shrink first_occurrences scenario_table
                  [] [] _ tracker next events first_occurrences_listing H
                  eq_refl)).
Defined.

(** X13. No match is final: when the stored symptoms already match no row,
    every later turn that recognizes a symptom answers no match again.
    The action never resets the stored symptoms. *)
Theorem no_match_is_final
    (list_of_set : list str -> list str) (disease_symptoms : DataFrame)
    (disease_info : InfoFrame) (dispatcher : list Message)
    (tracker : Tracker) :
  set_listing list_of_set ->
  narrow (stored_symptoms tracker) disease_symptoms = Ok NoMatch ->
  clean_symptom_input (all_symptoms disease_symptoms) (user_message tracker)
  <> [] ->
  ActionPredictDisease.run list_of_set disease_symptoms disease_info
    dispatcher tracker
  = Ok ([SlotSet Slot.symptoms
           (updated_symptoms list_of_set disease_symptoms tracker);
         SlotSet Slot.possible_diseases []],
        dispatcher ++ [could_not_match]).
Proof.
  intros Hset Hno Hsome.
  rewrite (run_by_narrow _ _ _ _ _ Hsome).
  assert (narrow (updated_symptoms list_of_set disease_symptoms tracker)
            disease_symptoms = Ok NoMatch) as ->; [|reflexivity].
  apply narrow_no_match_iff in Hno. apply narrow_no_match_iff.
  rewrite (rows_of_larger_set disease_symptoms (stored_symptoms tracker)).
  - now rewrite Hno.
  - intros s. now apply stored_in_updated.
Qed.

Lemma no_match_is_final_witness :
  let tracker :=
    {| latest_message_text := Some (text "I have fever");
       get_slot :=
         set_slot Slot.symptoms [text "cough"; text "rash"] no_slots |} in
  set_listing first_occurrences
  /\ narrow (stored_symptoms tracker) scenario_table = Ok NoMatch
  /\ clean_symptom_input (all_symptoms scenario_table) (user_message tracker)
     <> []
  /\ ActionPredictDisease.run first_occurrences scenario_table [] [] tracker
     = Ok ([SlotSet Slot.symptoms [text "cough"; text "rash"; text "fever"];
            SlotSet Slot.possible_diseases []],
           [could_not_match]).
Proof.
  intros tracker.
  assert (narrow (stored_symptoms tracker) scenario_table = Ok NoMatch) as H1
      by reflexivity.
  assert (clean_symptom_input (all_symptoms scenario_table)
            (user_message tracker) <> []) as H2
      by (vm_compute; discriminate).
  split; [exact first_occurrences_listing|]. split; [exact H1|].
  split; [exact H2|].
  rewrite (no_match_is_final first_occurrences scenario_table [] [] tracker
             first_occurrences_listing H1 H2).
  reflexivity.
Defined.

(** ** Blank messages *)

Lemma blank_text_is_left_alone (s : str) :
  Forall (fun c => is_sep c = true) s -> cleaned_text s = s.
Proof.
  intros Hs. unfold cleaned_text. rewrite lower_of_fixed.
  - apply remove_all_without_occurrence; [exact filler_words_nonempty|].
    intros w Hw Ho.
    pose proof (proj1 (forallb_forall _ _) filler_words_shaped w Hw) as Hsh.
    destruct (word_shaped_head w Hsh) as [c [w' [-> Hc]]].
    assert (In c s) as Hin by (apply (occurs_In (c :: w')); [exact Ho|now left]).
    apply (proj1 (Forall_forall _ _) Hs) in Hin. congruence.
  - apply Forall_impl with (2 := Hs). exact sep_lower_fixed.
Qed.

Lemma blank_text_has_no_token (vocabulary : list str) (s : str) :
  Forall (fun c => is_sep c = true) s -> ~ In [] vocabulary ->
  clean_symptom_input vocabulary s = [].
Proof.
  intros Hs Hempty. rewrite clean_symptom_input_unfold.
  apply filter_nil_iff. intros t Hin. apply mem_false.
  rewrite (blank_text_is_left_alone s Hs) in Hin.
  apply in_map_iff in Hin. destruct Hin as [t0 [<- Hin]].
  apply re_split_token in Hin. destruct Hin as [Hfree Hocc].
  assert (t0 = []) as ->.
  { destruct t0 as [|c t0]; [reflexivity|]. exfalso.
    assert (In c s) as Hin by (apply (occurs_In (c :: t0)); [exact Hocc|now left]).
    apply (proj1 (Forall_forall _ _) Hs) in Hin.
    inversion Hfree; subst. congruence. }
  exact Hempty.
Qed.

(** X14. A message whose text is empty or made of commas and whitespace
    only is answered by the rephrase prompt with no event, provided no
    symptom label of the header is the empty string. *)
Theorem blank_message_asks_to_rephrase
    (list_of_set : list str -> list str) (disease_symptoms : DataFrame)
    (disease_info : InfoFrame) (dispatcher : list Message)
    (tracker : Tracker) (message : str) :
  latest_message_text tracker = Some message ->
  Forall (fun c => is_sep c = true) message ->
  ~ In [] (all_symptoms disease_symptoms) ->
  ActionPredictDisease.run list_of_set disease_symptoms disease_info
    dispatcher tracker
  = Ok ([], dispatcher ++ [could_you_rephrase]).
Proof.
  intros Htext Hblank Hempty. apply run_without_symptom.
  unfold user_message. rewrite Htext.
  now apply blank_text_has_no_token.
Qed.

Lemma blank_message_asks_to_rephrase_witness :
  let tracker :=
    {| latest_message_text := Some (text " ,  , ");
       get_slot := set_slot Slot.symptoms [text "fever"] no_slots |} in
  latest_message_text tracker = Some (text " ,  , ")
  /\ Forall (fun c => is_sep c = true) (text " ,  , ")
  /\ ~ In [] (all_symptoms scenario_table)
  /\ ActionPredictDisease.run first_occurrences scenario_table scenario_info
       [] tracker
     = Ok ([], [could_you_rephrase]).
Proof.
  intros tracker.
  assert (Forall (fun c => is_sep c = true) (text " ,  , ")) as H1
      by (repeat constructor).
  assert (~ In [] (all_symptoms scenario_table)) as H2
      by (vm_compute; intuition discriminate).
  split; [reflexivity|]. split; [exact H1|]. split; [exact H2|].
  exact (blank_message_asks_to_rephrase first_occurrences scenario_table
           scenario_info [] tracker (text " ,  , ") eq_refl H1 H2).
Defined.

(** ** The info action *)

(** X15. The info action utters exactly one message after those already
    uttered.  It is the question which disease to explain exactly when the
    slot [predicted_disease] is unset or holds the empty string. *)
Theorem info_action_asks_when_the_slot_is_unset_or_empty
    (disease_info : InfoFrame) (dispatcher : list Message)
    (tracker : Tracker) :
  exists message,
    ActionGetDiseaseInfo.run disease_info dispatcher tracker
    = ([], dispatcher ++ [message])
    /\ (message = which_disease
        <-> get_slot tracker Slot.predicted_disease = None
            \/ get_slot tracker Slot.predicted_disease = Some []).
Proof.
  unfold ActionGetDiseaseInfo.run.
  destruct (get_slot tracker Slot.predicted_disease) as [[|c d]|].
  - eexists. split; [reflexivity|]. split; [now right | reflexivity].
  - destruct (lookup (c :: d) disease_info) as [[[x y] z]|];
      eexists; (split; [reflexivity|]);
      (split; [discriminate | intros [H|H]; discriminate]).
  - eexists. split; [reflexivity|]. split; [now left | reflexivity].
Qed.

(** X16. The two actions compose: after a unique match on a disease with a
    non-empty name, the info action run on the updated slots explains that
    disease, with the details the info table holds for it or, when it holds
    none, with the message that it has no details. *)
Theorem info_action_explains_the_predicted_disease
    (list_of_set : list str -> list str) (disease_symptoms : DataFrame)
    (disease_info : InfoFrame) (dispatcher dispatcher' messages : list Message)
    (tracker next : Tracker) (events : list Event) (d : str) :
  clean_symptom_input (all_symptoms disease_symptoms) (user_message tracker)
  <> [] ->
  narrow (updated_symptoms list_of_set disease_symptoms tracker)
    disease_symptoms = Ok (UniqueMatch d) ->
  d <> [] ->
  ActionPredictDisease.run list_of_set disease_symptoms disease_info
    dispatcher tracker = Ok (events, messages) ->
  get_slot next Slot.predicted_disease
  = apply_events events (get_slot tracker) Slot.predicted_disease ->
  ActionGetDiseaseInfo.run disease_info dispatcher' next
  = ([], dispatcher'
         ++ [match lookup d disease_info with
             | Some (description, treatment, prevention) =>
                 details_of description treatment prevention
             | None => no_details_about d
             end]).
Proof.
  intros Hsome Hnarrow Hd Hrun Hnext.
  rewrite (run_by_narrow _ _ _ _ _ Hsome) in Hrun. simpl in Hrun.
  rewrite Hnarrow in Hrun. injection Hrun as <- _.
  simpl in Hnext. unfold ActionGetDiseaseInfo.run. rewrite Hnext.
  destruct d as [|c d]; [congruence|].
  now destruct (lookup (c :: d) disease_info) as [[[x y] z]|].
Qed.

Lemma info_action_explains_the_predicted_disease_witness :
  let tracker :=
    {| latest_message_text := Some (text "fever, cough");
       get_slot := no_slots |} in
  let events :=
    [SlotSet Slot.symptoms [text "fever"; text "cough"];
     SlotSet Slot.possible_diseases [text "flu"];
     SlotSet Slot.predicted_disease (text "flu")] in
  let next :=
    {| latest_message_text := None;
       get_slot := apply_events events (get_slot tracker) |} in
  clean_symptom_input (all_symptoms scenario_table) (user_message tracker)
  <> []
  /\ narrow (updated_symptoms first_occurrences scenario_table tracker)
       scenario_table = Ok (UniqueMatch (text "flu"))
  /\ text "flu" <> []
  /\ ActionGetDiseaseInfo.run scenario_info [] next
     = ([], [details_of (text "viral infection") (text "rest")
               (text "vaccine")]).
Proof.
  intros tracker events next.
  assert (clean_symptom_input (all_symptoms scenario_table)
            (user_message tracker) <> []) as H1
      by (vm_compute; discriminate).
  assert (narrow (updated_symptoms first_occurrences scenario_table tracker)
            scenario_table = Ok (UniqueMatch (text "flu"))) as H2
      by (vm_compute; reflexivity).
  assert (text "flu" <> []) as H3 by (vm_compute; discriminate).
  split; [exact H1|]. split; [exact H2|]. split; [exact H3|].
  rewrite (info_action_explains_the_predicted_disease first_occurrences
             scenario_table scenario_info [] []
             [most_likely_with_details (text "flu") (text "viral infection")
                (text "rest") (text "vaccine")]
             tracker next events (text "flu") H1 H2 H3 eq_refl eq_refl).
  reflexivity.
Defined.
